(** * Verification of the bigER lightweight validator

    A shallow embedding of [tools/biger_validator.py] and the proofs of the
    properties its specification states.

    - [Py]: the operations of Python's [str] the validator calls
      ([strip], [startswith], [endswith], [count], [in], [split],
      [splitlines]), over sequences of Unicode code points.
    - [Re]: the fragment of Python's [re] the validator's patterns use, with
      its denotation as a language and a matcher by derivatives.  Only the
      truth value of [match] and [search] is observed by the validator.
    - [Validator]: [check_file] and the command-line entry point, written
      loop by loop as in the source, with the list of issues and the scan
      state threaded through.
    - [Spec]: the predicates of the specification, written from its words.

    The proofs follow: the matcher decides the language of a pattern; each
    loop of [check_file] appends what its iterations append; every issue comes
    from its own check; then the properties C1 to C10.
*)

From Stdlib Require Import List ZArith NArith Lia Bool String Ascii.
From Stdlib Require Import DecimalNat DecimalString Sorted.
Import ListNotations.

Set Implicit Arguments.

(* ================================================================== *)
(** * Python strings *)

Module Py.

(** A Python [str] is a sequence of code points. *)
Definition char := N.
Definition str := list char.

(** A literal: the code points of an ASCII string. *)
Definition py (s : string) : str := map N_of_ascii (list_ascii_of_string s).

(** One ASCII character as a code point. *)
Definition ch (a : ascii) : char := N_of_ascii a.

(** The double-quote character, U+0022. *)
Definition dquote : char := 34%N.

Local Open Scope N_scope.

(** [str.isspace] on one code point (CPython's [Py_UNICODE_ISSPACE]); the
    same set is what [\s] matches in a [str] pattern. *)
Definition isspace (c : char) : bool :=
  ((0x09 <=? c) && (c <=? 0x0D)) || ((0x1C <=? c) && (c <=? 0x20))
  || (c =? 0x85) || (c =? 0xA0) || (c =? 0x1680)
  || ((0x2000 <=? c) && (c <=? 0x200A))
  || (c =? 0x2028) || (c =? 0x2029) || (c =? 0x202F) || (c =? 0x205F)
  || (c =? 0x3000).

(** The line boundaries of [str.splitlines]. *)
Definition is_linebreak (c : char) : bool :=
  ((0x0A <=? c) && (c <=? 0x0D)) || ((0x1C <=? c) && (c <=? 0x1E))
  || (c =? 0x85) || (c =? 0x2028) || (c =? 0x2029).

Fixpoint lstrip (s : str) : str :=
  match s with
  | [] => []
  | c :: s' => if isspace c then lstrip s' else s
  end.

Definition rstrip (s : str) : str := rev (lstrip (rev s)).

(** [s.strip()] *)
Definition strip (s : str) : str := rstrip (lstrip s).

(** [s.startswith(prefix)] *)
Fixpoint startswith (s prefix : str) {struct prefix} : bool :=
  match prefix with
  | [] => true
  | p :: prefix' =>
      match s with
      | [] => false
      | c :: s' => if c =? p then startswith s' prefix' else false
      end
  end.

(** [s.endswith(suffix)] *)
Definition endswith (s suffix : str) : bool := startswith (rev s) (rev suffix).

(** [sub in s] *)
Fixpoint contains (s sub : str) : bool :=
  if startswith s sub then true
  else match s with
       | [] => false
       | _ :: s' => contains s' sub
       end.

(** [s.count(sub)] for a non-empty [sub]: occurrences counted from the left
    without overlap.  [skip] is the number of characters of the occurrence
    just counted that are still to be passed. *)
Fixpoint count_from (sub : str) (skip : nat) (s : str) : nat :=
  match s with
  | [] => O
  | _ :: s' =>
      match skip with
      | S k => count_from sub k s'
      | O => if startswith s sub then S (count_from sub (List.length sub - 1) s')
             else count_from sub O s'
      end
  end.

Definition count (s sub : str) : nat := count_from sub O s.

(** [s.split(sep)] for a non-empty [sep]. [cur] holds the current piece in
    reverse. *)
Fixpoint split_from (sep : str) (skip : nat) (cur : str) (s : str) : list str :=
  match s with
  | [] => [rev cur]
  | c :: s' =>
      match skip with
      | S k => split_from sep k cur s'
      | O => if startswith s sep
             then rev cur :: split_from sep (List.length sep - 1) [] s'
             else split_from sep O (c :: cur) s'
      end
  end.

Definition split (s sep : str) : list str := split_from sep O [] s.

(** [s.splitlines()]: a CR LF pair is one boundary, and no empty last line is
    produced for a text that ends with a boundary. *)
Fixpoint splitlines_from (cur : str) (s : str) : list str :=
  match s with
  | [] => match cur with [] => [] | _ :: _ => [rev cur] end
  | c :: s' =>
      if is_linebreak c then
        rev cur ::
          match s' with
          | d :: s'' => if (c =? 0x0D) && (d =? 0x0A)
                        then splitlines_from [] s''
                        else splitlines_from [] s'
          | [] => splitlines_from [] s'
          end
      else splitlines_from (c :: cur) s'
  end.

Definition splitlines (text : str) : list str := splitlines_from [] text.

(** [enumerate(l, start)] *)
Definition enumerate (A : Type) (l : list A) (start : nat) : list (nat * A) :=
  combine (seq start (List.length l)) l.

(** The element that [enumerate(lines, start=1)] numbers [n]. *)
Definition line_at (lines : list str) (n : nat) : option str :=
  match n with
  | O => None
  | S k => nth_error lines k
  end.

(** [str(i)] for a non-negative integer. *)
Definition str_of_nat (i : nat) : str :=
  py (NilEmpty.string_of_uint (Nat.to_uint i)).

End Py.
Import Py.

(* ================================================================== *)
(** * Regular expressions *)

Module Re.

Local Open Scope N_scope.

(** The pattern syntax the validator uses.  A capturing or non-capturing group
    is its body: groups are never read back.  [Dot] is [.] without DOTALL. *)
Inductive re : Type :=
| Eps : re
| Lit : char -> re
| Dot : re
| Class : (char -> bool) -> re
| Cat : re -> re -> re
| Alt : re -> re -> re
| Star : re -> re.

Definition Plus (r : re) : re := Cat r (Star r).

(** A literal run of characters. *)
Fixpoint Str (s : str) : re :=
  match s with
  | [] => Eps
  | c :: s' => Cat (Lit c) (Str s')
  end.

(** The character sets [[A-Za-z_]] and [[A-Za-z0-9_]]; [\s] is
    [Class isspace]. *)
Definition is_upper (c : char) : bool := (0x41 <=? c) && (c <=? 0x5A).
Definition is_lower (c : char) : bool := (0x61 <=? c) && (c <=? 0x7A).
Definition is_digit (c : char) : bool := (0x30 <=? c) && (c <=? 0x39).
Definition alpha_us (c : char) : bool :=
  is_upper c || is_lower c || (c =? 0x5F).
Definition alnum_us (c : char) : bool :=
  is_upper c || is_lower c || is_digit c || (c =? 0x5F).

(** The words a pattern denotes. *)
Inductive lang : re -> str -> Prop :=
| lang_eps : lang Eps []
| lang_lit c : lang (Lit c) [c]
| lang_dot c : c <> 0x0A -> lang Dot [c]
| lang_class p c : p c = true -> lang (Class p) [c]
| lang_cat r1 r2 u v : lang r1 u -> lang r2 v -> lang (Cat r1 r2) (u ++ v)
| lang_alt_l r1 r2 u : lang r1 u -> lang (Alt r1 r2) u
| lang_alt_r r1 r2 u : lang r2 u -> lang (Alt r1 r2) u
| lang_star_nil r : lang (Star r) []
| lang_star_app r u v : lang r u -> lang (Star r) v -> lang (Star r) (u ++ v).

(** A pattern that denotes no word, for derivatives. *)
Definition Void : re := Class (fun _ => false).

Fixpoint nullable (r : re) : bool :=
  match r with
  | Eps => true
  | Lit _ | Dot | Class _ => false
  | Cat r1 r2 => nullable r1 && nullable r2
  | Alt r1 r2 => nullable r1 || nullable r2
  | Star _ => true
  end.

Fixpoint deriv (c : char) (r : re) : re :=
  match r with
  | Eps => Void
  | Lit d => if c =? d then Eps else Void
  | Dot => if c =? 0x0A then Void else Eps
  | Class p => if p c then Eps else Void
  | Cat r1 r2 =>
      if nullable r1 then Alt (Cat (deriv c r1) r2) (deriv c r2)
      else Cat (deriv c r1) r2
  | Alt r1 r2 => Alt (deriv c r1) (deriv c r2)
  | Star r1 => Cat (deriv c r1) (Star r1)
  end.

(** [r1|r2|...|rn] *)
Fixpoint alts (rs : list re) : re :=
  match rs with
  | [] => Void
  | [r] => r
  | r :: rs' => Alt r (alts rs')
  end.

(** [bool(pattern.match(s))]: some prefix of [s] is a word of the pattern.
    A leading [^] adds nothing to [match] (no MULTILINE flag is used). *)
Fixpoint re_match (r : re) (s : str) {struct s} : bool :=
  if nullable r then true
  else match s with
       | [] => false
       | c :: s' => re_match (deriv c r) s'
       end.

(** The whole of [s] is a word of the pattern (not called by the validator;
    used to evaluate membership in a pattern's language). *)
Definition re_fullmatch (r : re) (s : str) : bool :=
  nullable (fold_left (fun q c => deriv c q) s r).

(** [bool(re.search(pattern, s))]: a match starting at some position. *)
Fixpoint re_search (r : re) (s : str) {struct s} : bool :=
  if re_match r s then true
  else match s with
       | [] => false
       | _ :: s' => re_search r s'
       end.

End Re.
Import Re.

(* ================================================================== *)
(** * The validator *)

Module Validator.

Local Open Scope N_scope.

(** ** Patterns *)

(** [a\..b]: the character [a], a literal dot, then [.] (any character but
    a newline), then [b].  This is how the source writes each ranged
    cardinality: the first dot is escaped and the second is not. *)
Definition range_loose (a b : char) : re :=
  Cat (Lit a) (Cat (Lit (ch ".")) (Cat Dot (Lit b))).

(** [a\.\.b]: both dots literal. *)
Definition range_strict (a b : char) : re :=
  Cat (Lit a) (Cat (Lit (ch ".")) (Cat (Lit (ch ".")) (Lit b))).

(** [(?:0\..N|1\..N|0\..1|1\..1|N|1)] *)
Definition card_alternatives : re :=
  alts [ range_loose (ch "0") (ch "N"); range_loose (ch "1") (ch "N");
         range_loose (ch "0") (ch "1"); range_loose (ch "1") (ch "1");
         Lit (ch "N"); Lit (ch "1") ].

(** [CARD_PATTERN = \[(?:0\..N|1\..N|0\..1|1\..1|0\..N|N|1|0\.\.N)\]|]
    (never used by [check_file]).  Its last alternative is the only place
    where both dots of a range are escaped. *)
Definition CARD_PATTERN : re :=
  Alt
    (Cat (Lit (ch "["))
       (Cat
          (alts [ range_loose (ch "0") (ch "N"); range_loose (ch "1") (ch "N");
                  range_loose (ch "0") (ch "1"); range_loose (ch "1") (ch "1");
                  range_loose (ch "0") (ch "N");
                  Lit (ch "N"); Lit (ch "1");
                  range_strict (ch "0") (ch "N") ])
          (Lit (ch "]"))))
    Eps.

(** In the three declaration patterns, ID stands for [[A-Za-z_][A-Za-z0-9_]*].

    [ENTITY_DECL = ^entity\s+(ID)] *)
Definition ENTITY_DECL : re :=
  Cat (Str (py "entity"))
    (Cat (Plus (Class isspace)) (Cat (Class alpha_us) (Star (Class alnum_us)))).

(** [WEAK_ENTITY_DECL = ^weak entity\s+(ID)] *)
Definition WEAK_ENTITY_DECL : re :=
  Cat (Str (py "weak entity"))
    (Cat (Plus (Class isspace)) (Cat (Class alpha_us) (Star (Class alnum_us)))).

(** [REL_DECL = ^relationship\s+(ID)] *)
Definition REL_DECL : re :=
  Cat (Str (py "relationship"))
    (Cat (Plus (Class isspace)) (Cat (Class alpha_us) (Star (Class alnum_us)))).

(** [NOTATION_DECL = ^notation\s*=\s*([A-Za-z_]+)] (never used by
    [check_file]). *)
Definition NOTATION_DECL : re :=
  Cat (Str (py "notation"))
    (Cat (Star (Class isspace))
       (Cat (Lit (ch "="))
          (Cat (Star (Class isspace)) (Plus (Class alpha_us))))).

(** The two patterns written inline in the cardinality loop:
    [\[(?:0\..N|1\..N|0\..1|1\..1|N|1)\]] and
    [\[(?:0\..N|1\..N|0\..1|1\..1|N|1)\s*\|]. *)
Definition card_closed : re :=
  Cat (Lit (ch "[")) (Cat card_alternatives (Lit (ch "]"))).

Definition card_role : re :=
  Cat (Lit (ch "["))
    (Cat card_alternatives (Cat (Star (Class isspace)) (Lit (ch "|")))).

(** ** Issues *)

(** One constructor per message of the source; [issue_text] is the string
    the source appends. *)
Inductive Issue : Type :=
| MissingHeader
| MissingNotation
| UnmatchedClosingBrace (i : nat)
| MismatchedBraces
| InvalidEntity (i : nat) (s : str)
| InvalidRelationship (i : nat) (s : str)
| UnrecognizedCardinality (i : nat) (s : str)
| QuotedIdentifiers (i : nat).

Definition issue_text (it : Issue) : str :=
  match it with
  | MissingHeader =>
      py "Missing or malformed header: file should start with "
        ++ [dquote] ++ py "erdiagram ModelName" ++ [dquote]
  | MissingNotation =>
      py "Missing notation declaration (e.g. notation=crowsfoot) in the first 10 lines"
  | UnmatchedClosingBrace i =>
      py "Unmatched closing brace on line " ++ str_of_nat i
  | MismatchedBraces =>
      py "Mismatched braces: some blocks are not closed"
  | InvalidEntity i s =>
      py "Invalid entity declaration on line " ++ str_of_nat i
        ++ py ": " ++ [dquote] ++ s ++ [dquote]
  | InvalidRelationship i s =>
      py "Invalid relationship declaration on line " ++ str_of_nat i
        ++ py ": " ++ [dquote] ++ s ++ [dquote]
  | UnrecognizedCardinality i s =>
      py "Unrecognized cardinality on line " ++ str_of_nat i
        ++ py ": " ++ [dquote] ++ s ++ [dquote]
  | QuotedIdentifiers i =>
      py "Quoted identifiers or roles found on line " ++ str_of_nat i
        ++ py ": bigER prefers unquoted names; using quotes may cause parser errors"
  end.

(** The line number an issue cites, if it cites one. *)
Definition issue_line (it : Issue) : option nat :=
  match it with
  | MissingHeader | MissingNotation | MismatchedBraces => None
  | UnmatchedClosingBrace i | InvalidEntity i _ | InvalidRelationship i _
  | UnrecognizedCardinality i _ | QuotedIdentifiers i => Some i
  end.

(** ** The checks of [check_file], in source order

    Each check takes the list of issues so far and returns it extended:
    [issues.append(x)] is [issues ++ [x]]. *)

(** Check header *)
Definition check_header (lines : list str) (issues : list Issue) : list Issue :=
  match lines with
  | [] => issues ++ [MissingHeader]
  | line0 :: _ =>
      if negb (startswith (strip line0) (py "erdiagram"))
      then issues ++ [MissingHeader]
      else issues
  end.

(** Check notation *)
Definition check_notation (lines : list str) (issues : list Issue) : list Issue :=
  if negb (existsb (fun line => startswith (strip line) (py "notation="))
             (firstn 10 lines))
  then issues ++ [MissingNotation]
  else issues.

(** Braces balancing: one iteration of the loop over [(issues, open_braces)]. *)
Definition brace_step (st : list Issue * Z) (il : nat * str) : list Issue * Z :=
  let '(issues, open_braces) := st in
  let '(i, line) := il in
  let open_braces := (open_braces + Z.of_nat (count line (py "{")))%Z in
  let open_braces := (open_braces - Z.of_nat (count line (py "}")))%Z in
  if (open_braces <? 0)%Z
  then (issues ++ [UnmatchedClosingBrace i], 0%Z)
  else (issues, open_braces).

Definition check_braces (lines : list str) (issues : list Issue) : list Issue :=
  let '(issues, open_braces) :=
    fold_left brace_step (enumerate lines 1) (issues, 0%Z) in
  if negb (open_braces =? 0)%Z
  then issues ++ [MismatchedBraces]
  else issues.

(** Simple entity/relationship name checks *)
Definition decl_step (issues : list Issue) (il : nat * str) : list Issue :=
  let '(i, line) := il in
  let s := strip line in
  let issues :=
    if startswith s (py "entity ") || startswith s (py "weak entity ")
    then if negb (re_match ENTITY_DECL s || re_match WEAK_ENTITY_DECL s)
         then issues ++ [InvalidEntity i s]
         else issues
    else issues in
  if startswith s (py "relationship ")
  then if negb (re_match REL_DECL s)
       then issues ++ [InvalidRelationship i s]
       else issues
  else issues.

Definition check_decls (lines : list str) (issues : list Issue) : list Issue :=
  fold_left decl_step (enumerate lines 1) issues.

(** Check relationship arrow and cardinality patterns: the body of the inner
    loop over the pieces of [line.split('->')]. *)
Definition card_token_step (i : nat) (line : str)
    (issues : list Issue) (t : str) : list Issue :=
  if contains t (py "[") && contains t (py "]")
  then if negb (re_search card_closed t)
       then if contains t (py "|") && re_search card_role t
            then issues
            else issues ++ [UnrecognizedCardinality i (strip line)]
       else issues
  else issues.

(** The three parts of the outer loop's body: the flag is set on a line that
    opens a relationship, the line is checked if it has an arrow, and the flag
    is cleared on a line that ends with a closing brace. *)
Definition rel_enter (rel_block : bool) (line : str) : bool :=
  if startswith (strip line) (py "relationship ") then true else rel_block.

Definition card_line (i : nat) (line : str) (issues : list Issue) : list Issue :=
  if contains line (py "->")
  then fold_left (card_token_step i line) (split line (py "->")) issues
  else issues.

Definition rel_leave (rel_block : bool) (line : str) : bool :=
  if endswith (strip line) (py "}") then false else rel_block.

(** One iteration of the outer loop over [(issues, rel_block)]. *)
Definition card_step (st : list Issue * bool) (il : nat * str)
    : list Issue * bool :=
  let '(issues, rel_block) := st in
  let '(i, line) := il in
  let rel_block := rel_enter rel_block line in
  if rel_block
  then (card_line i line issues, rel_leave rel_block line)
  else (issues, rel_block).

(** The value of [rel_block] under which line [i] (from 1) is tested: the
    flag the loop holds after the lines before it, then [rel_enter]. *)
Definition rel_block_at (lines : list str) (i : nat) : bool :=
  match line_at lines i with
  | None => false
  | Some l =>
      rel_enter
        (snd (fold_left card_step (enumerate (firstn (i - 1) lines) 1)
                ([], false)))
        l
  end.

Definition check_cardinalities (lines : list str) (issues : list Issue)
    : list Issue :=
  fst (fold_left card_step (enumerate lines 1) (issues, false)).

(** Check for quoted identifiers *)
Definition quote_step (issues : list Issue) (il : nat * str) : list Issue :=
  let '(i, line) := il in
  if contains line [dquote] then issues ++ [QuotedIdentifiers i] else issues.

Definition check_quotes (lines : list str) (issues : list Issue) : list Issue :=
  fold_left quote_step (enumerate lines 1) issues.

(** The body of [check_file] after the file has been read and split. *)
Definition check_lines (lines : list str) : list Issue :=
  let issues := [] in
  let issues := check_header lines issues in
  let issues := check_notation lines issues in
  let issues := check_braces lines issues in
  let issues := check_decls lines issues in
  let issues := check_cardinalities lines issues in
  let issues := check_quotes lines issues in
  issues.

(** ** The file system and the entry point *)

(** What the program sees of its environment through [pathlib]: for the
    command-line argument [a], [path_str a] is [str(Path(a))], [path_exists a]
    is [Path(a).exists()] and [path_read_text a] is
    [Path(a).read_text(encoding='utf-8')], [None] when the call raises. *)
Record World : Type := {
  path_str : str -> str;
  path_exists : str -> bool;
  path_read_text : str -> option str
}.

(** [check_file(path)]: the issues as the strings the source builds. *)
Definition check_file (w : World) (path : str) : option (list str) :=
  match path_read_text w path with
  | None => None
  | Some text =>
      let lines := splitlines text in
      Some (map issue_text (check_lines lines))
  end.

(** A run ends in [sys.exit(status)] after printing [stdout] (one element per
    [print]), or in an exception nothing catches. *)
Inductive Outcome : Type :=
| Exit (stdout : list str) (status : Z)
| Uncaught (stdout : list str).

Definition usage_message : str := py "Usage: biger_validator.py <path_to_erd_file>".
Definition pass_message : str :=
  py "PASS: No obvious syntax problems found by the lightweight validator.".

(** The [__main__] block; [argv] is [sys.argv], program name included. *)
Definition main (w : World) (argv : list str) : Outcome :=
  if negb (List.length argv =? 2)%nat
  then Exit [usage_message] 2
  else
    let p := nth 1 argv [] in
    if negb (path_exists w p)
    then Exit [py "File not found: " ++ path_str w p] 2
    else
      match check_file w p with
      | None => Uncaught []
      | Some issues =>
          match issues with
          | [] => Exit [pass_message] 0
          | _ :: _ =>
              Exit (py "Found issues:" :: map (fun it => py "- " ++ it) issues) 1
          end
      end.

End Validator.
Import Validator.

(* ================================================================== *)
(** * The specification's vocabulary *)

Module Spec.

(** The trimmed form of a line starts with [prefix]. *)
Definition trimmed_starts (prefix : str) (l : str) : Prop :=
  exists rest, strip l = prefix ++ rest.

(** The trimmed form of a line ends with [suffix]. *)
Definition trimmed_ends (suffix : str) (l : str) : Prop :=
  exists front, strip l = front ++ suffix.

(** An identifier: a letter or underscore followed by zero or more letters,
    digits or underscores. *)
Definition identifier (id : str) : Prop :=
  exists c cs, id = c :: cs /\ alpha_us c = true
               /\ Forall (fun x => alnum_us x = true) cs.

(** One or more whitespace characters: what the specification calls
    spaces, the characters of [\s]. *)
Definition spaces (sp : str) : Prop :=
  sp <> [] /\ Forall (fun c => isspace c = true) sp.

(** A declaration: the keyword, one or more spaces, then an identifier,
    anchored at the start of the text; what follows is free. *)
Definition declaration (kw : str) (s : str) : Prop :=
  exists sp id rest, s = kw ++ sp ++ id ++ rest /\ spaces sp /\ identifier id.

(** An entity declaration: optional [weak ] prefix, then [entity]. *)
Definition entity_declaration (s : str) : Prop :=
  exists weak, (weak = [] \/ weak = py "weak ")
               /\ declaration (weak ++ py "entity") s.

Definition relationship_declaration (s : str) : Prop :=
  declaration (py "relationship") s.

(** The recognized cardinality tokens. *)
Definition cardinality_tokens : list str :=
  [py "0..N"; py "1..N"; py "0..1"; py "1..1"; py "N"; py "1"].

(** A segment holds a recognized cardinality: a bracketed token, or a
    bracketed token followed by [|] and a role designator. *)
Definition recognized_cardinality (t : str) : Prop :=
  exists tok pre post, In tok cardinality_tokens /\
    (t = pre ++ py "[" ++ tok ++ py "]" ++ post
     \/ exists sp role,
          Forall (fun c => isspace c = true) sp
          /\ t = pre ++ py "[" ++ tok ++ sp ++ py "|" ++ role ++ py "]" ++ post).

(** The same as patterns over the literal tokens, for evaluation. *)
Definition tokens_re : re := alts (map Str cardinality_tokens).

Definition recognizedb (t : str) : bool :=
  re_search (Cat (Lit (ch "[")) (Cat tokens_re (Lit (ch "]")))) t
  || contains t (py "|")
     && re_search
          (Cat (Lit (ch "["))
             (Cat tokens_re (Cat (Star (Class isspace)) (Lit (ch "|"))))) t.

(** The contribution of a line to the brace counter. *)
Definition brace_delta (l : str) : Z :=
  (Z.of_nat (count_occ N.eq_dec l (ch "{"))
   - Z.of_nat (count_occ N.eq_dec l (ch "}")))%Z.

(** The running brace counter of C1: deltas summed, nothing reset. *)
Fixpoint brace_sum (lines : list str) : Z :=
  match lines with
  | [] => 0%Z
  | l :: rest => (brace_delta l + brace_sum rest)%Z
  end.

(** The brace counter of the brace check after the first [k] lines: it starts
    at 0 and is reset to 0 after a line that makes it negative. *)
Fixpoint counter_after (lines : list str) (k : nat) : Z :=
  match k with
  | O => 0%Z
  | S k' =>
      let c := (counter_after lines k' + brace_delta (nth k' lines []))%Z in
      if (c <? 0)%Z then 0%Z else c
  end.

(** The counter is negative right after line [n] is added, before the reset. *)
Definition negative_at (lines : list str) (n : nat) : bool :=
  (counter_after lines (n - 1) + brace_delta (nth (n - 1) lines []) <? 0)%Z.

(** Line [i] is inside a relationship block: some line [j <= i] starts
    (trimmed) with [relationship ] and no line from [j] to [i - 1] ends
    (trimmed) with a closing brace. *)
Definition in_rel_block (lines : list str) (i : nat) : Prop :=
  exists j lj,
    j <= i /\ line_at lines j = Some lj
    /\ trimmed_starts (py "relationship ") lj
    /\ forall k lk, j <= k < i -> line_at lines k = Some lk ->
                    ~ trimmed_ends (py "}") lk.

(** The header is missing: the document is empty or its first line, trimmed,
    does not start with [erdiagram]. *)
Definition header_missing (lines : list str) : Prop :=
  lines = [] \/ exists l0 rest, lines = l0 :: rest
                               /\ ~ trimmed_starts (py "erdiagram") l0.

(** A line has an arrow. *)
Definition has_arrow (l : str) : Prop :=
  exists pre post, l = pre ++ py "->" ++ post.

(** The documents of C1. *)
Record conforming (lines : list str) : Prop := {
  conf_header :
    exists l0 rest, lines = l0 :: rest /\ trimmed_starts (py "erdiagram") l0;
  conf_notation :
    exists i l, 1 <= i <= 10 /\ line_at lines i = Some l
                /\ trimmed_starts (py "notation=") l;
  conf_braces_nonneg :
    forall k, k <= List.length lines -> (0 <= brace_sum (firstn k lines))%Z;
  conf_braces_closed : brace_sum lines = 0%Z;
  conf_entity :
    forall l, In l lines -> trimmed_starts (py "entity ") l ->
              declaration (py "entity") (strip l);
  conf_weak_entity :
    forall l, In l lines -> trimmed_starts (py "weak entity ") l ->
              declaration (py "weak entity") (strip l);
  conf_relationship :
    forall l, In l lines -> trimmed_starts (py "relationship ") l ->
              declaration (py "relationship") (strip l);
  conf_cardinality :
    forall i l t, line_at lines i = Some l -> in_rel_block lines i ->
                  has_arrow l -> In t (split l (py "->")) ->
                  In (ch "[") t -> In (ch "]") t ->
                  recognized_cardinality t;
  conf_no_quote : forall l, In l lines -> ~ In dquote l
}.

End Spec.

(* ================================================================== *)
(** * Devices for the proofs *)

(** A loop of the source that only appends to [issues] while it updates a
    scan state is a machine with outputs: [emit_of] is what one iteration
    appends, [next_of] the state it leaves, [run_emit] what the whole loop
    appends and [run_state] the state it ends in. *)
Section Machine.
Variables (S A B : Type).
Variable step : list B * S -> A -> list B * S.

Definition emit_of (st : S) (a : A) : list B := fst (step ([], st) a).
Definition next_of (st : S) (a : A) : S := snd (step ([], st) a).

Fixpoint run_emit (st : S) (l : list A) : list B :=
  match l with
  | [] => []
  | a :: l' => emit_of st a ++ run_emit (next_of st a) l'
  end.

Fixpoint run_state (st : S) (l : list A) : S :=
  match l with
  | [] => st
  | a :: l' => run_state (next_of st a) l'
  end.
End Machine.

(** The state in which a loop over [enumerate(lines, start=1)] reaches
    line [i]. *)
Definition state_before (S B : Type)
    (step : list B * S -> nat * str -> list B * S)
    (st : S) (lines : list str) (i : nat) : S :=
  run_state step st (enumerate (firstn (i - 1) lines) 1).

(** The check that raises an issue, numbered in source order from 0, and the
    issues of a document check by check. *)
Definition issue_check (x : Issue) : nat :=
  match x with
  | MissingHeader => 0
  | MissingNotation => 1
  | UnmatchedClosingBrace _ | MismatchedBraces => 2
  | InvalidEntity _ _ | InvalidRelationship _ _ => 3
  | UnrecognizedCardinality _ _ => 4
  | QuotedIdentifiers _ => 5
  end.

Definition checks (lines : list str) : list (list Issue) :=
  [ check_header lines []; check_notation lines []; check_braces lines [];
    check_decls lines []; check_cardinalities lines []; check_quotes lines [] ].

(** Decidable equality of issues, to count them. *)
Definition Issue_eq_dec (a b : Issue) : {a = b} + {a <> b}.
Proof.
  decide equality;
    try apply Nat.eq_dec; apply (list_eq_dec N.eq_dec).
Defined.

(* ================================================================== *)
(** * Documents and environments used as instances *)

Module Examples.

Definition nl : str := [10%N].

(** The passing scenario of the specification, as a text and as lines. *)
Definition shop_text : str :=
  py "erdiagram Shop" ++ nl ++ py "notation=crowsfoot" ++ nl
    ++ py "entity Order {" ++ nl ++ py "  id" ++ nl ++ py "}" ++ nl.

Definition shop : list str :=
  [py "erdiagram Shop"; py "notation=crowsfoot"; py "entity Order {";
   py "  id"; py "}"].



(** A relationship whose cardinality is not one of the six tokens but is
    matched by the inline pattern. *)
Definition loose_dot : list str :=
  [py "erdiagram M"; py "notation=crowsfoot"; py "relationship R {";
   py "  A -> B [0.xN]"; py "}"].

(** The cardinalities of the specification's scenario. *)
Definition cards : list str :=
  [py "erdiagram M"; py "notation=crowsfoot"; py "relationship R {";
   py "  A -> B [0..N]"; py "  B -> A [1]"; py "  A -> B [maybe]"; py "}"].

(** Two stray closing braces, on lines 1 and 3. *)
Definition two_strays : list str := [py "}"; py "x"; py "}"].

(** A relationship with a nested block that closes on its own line. *)
Definition nested : list str :=
  [py "relationship R {"; py "  attrs { x }"; py "  A -> B [maybe]"; py "}"].

(** The same relationship without the nested block. *)
Definition not_nested : list str :=
  [py "relationship R {"; py "  A -> B [maybe]"; py "}"].

Definition bad_entity : list str := [py "entity 2Bad { ... }"].

Definition bare_notation : list str := [py "erdiagram M"; py "notation="].

(** An environment with one file; paths print as they are given. *)
Definition one_file (name text : str) : World :=
  {| path_str := fun a => a;
     path_exists := fun a => if list_eq_dec N.eq_dec a name then true else false;
     path_read_text :=
       fun a => if list_eq_dec N.eq_dec a name then Some text else None |}.


End Examples.

(* ================================================================== *)
(** * The behaviour of the checks, read off the code *)

Module Behaviour.

(** A run of whitespace characters, possibly empty. *)
Definition blank (s : str) : Prop := Forall (fun c => isspace c = true) s.

(** [l'] is [l] between two runs of whitespace. *)
Definition padded (l l' : str) : Prop :=
  exists a b, blank a /\ blank b /\ l' = a ++ l ++ b.

(** A text free of line boundaries. *)
Definition one_line (s : str) : Prop :=
  Forall (fun c => is_linebreak c = false) s.

(** The text whose lines are [lines], each ended by a line feed. *)
Definition join_lines (lines : list str) : str :=
  List.concat (map (fun l => l ++ [10%N]) lines).

(** The same with CR LF line ends. *)
Definition join_lines_crlf (lines : list str) : str :=
  List.concat (map (fun l => l ++ [13%N; 10%N]) lines).

(** The words of [(?:0\..N|1\..N|0\..1|1\..1|N|1)]: [N], [1], and the four
    ranges with any character but a line feed in the place of the second
    dot. *)
Definition loose_token (tok : str) : Prop :=
  tok = py "N" \/ tok = py "1"
  \/ exists a c b,
       (a = ch "0" \/ a = ch "1") /\ (b = ch "N" \/ b = ch "1")
       /\ c <> 10%N /\ tok = [a; ch "."; c; b].

(** A segment the cardinality check lets through: it has a bracketed loose
    token, or an opening bracket, a loose token, whitespace and a bar. *)
Definition accepted_segment (t : str) : Prop :=
  exists tok pre post, loose_token tok /\
    (t = pre ++ py "[" ++ tok ++ py "]" ++ post
     \/ exists sp, blank sp /\ t = pre ++ py "[" ++ tok ++ sp ++ py "|" ++ post).

(** A segment the cardinality check reports. *)
Definition offending (t : str) : Prop :=
  In (ch "[") t /\ In (ch "]") t /\ ~ accepted_segment t.

(** The conditions under which the inner loop of the cardinality check
    appends, as one test. *)
Definition offendingb (t : str) : bool :=
  contains t (py "[") && contains t (py "]")
  && negb (re_search card_closed t)
  && negb (contains t (py "|") && re_search card_role t).

(** A text that, after leading whitespace, starts with a letter or an
    underscore. *)
Definition name_start (rest : str) : Prop :=
  exists c tail, lstrip rest = c :: tail /\ alpha_us c = true.

(** No prefix of the document closes more braces than it opens, and the
    document closes all it opens. *)
Definition balanced (lines : list str) : Prop :=
  (forall k, k <= List.length lines ->
             (0 <= Spec.brace_sum (firstn k lines))%Z)
  /\ Spec.brace_sum lines = 0%Z.

(** The documents [check_file] finds nothing in. *)
Record passing (lines : list str) : Prop := {
  pass_header : ~ Spec.header_missing lines;
  pass_notation :
    exists i l, 1 <= i <= 10 /\ line_at lines i = Some l
                /\ Spec.trimmed_starts (py "notation=") l;
  pass_braces : balanced lines;
  pass_entity :
    forall l, In l lines ->
      Spec.trimmed_starts (py "entity ") l
      \/ Spec.trimmed_starts (py "weak entity ") l ->
      Spec.entity_declaration (strip l);
  pass_relationship :
    forall l, In l lines -> Spec.trimmed_starts (py "relationship ") l ->
      Spec.relationship_declaration (strip l);
  pass_cardinality :
    forall i l t, line_at lines i = Some l -> Spec.in_rel_block lines i ->
      Spec.has_arrow l -> In t (split l (py "->")) -> ~ offending t;
  pass_no_quote : forall l, In l lines -> ~ In dquote l
}.

(** The place of an issue in the output: its check, then its line; the
    mismatched-braces issue comes after the unmatched-brace issues. *)
Definition line_rank (x : Issue) : option nat :=
  match x with
  | MissingHeader | MissingNotation => Some 0
  | MismatchedBraces => None
  | UnmatchedClosingBrace i | InvalidEntity i _ | InvalidRelationship i _
  | UnrecognizedCardinality i _ | QuotedIdentifiers i => Some i
  end.

Definition reported_before (a b : Issue) : Prop :=
  issue_check a < issue_check b
  \/ (issue_check a = issue_check b
      /\ match line_rank a, line_rank b with
         | Some i, Some j => i <= j
         | _, None => True
         | None, Some _ => False
         end).

End Behaviour.

(* ================================================================== *)
(** * Further instances *)

Module Cases.

(** An environment with two files. *)
Definition two_files (name1 text1 name2 text2 : str) : World :=
  {| path_str := fun a => a;
     path_exists :=
       fun a => if list_eq_dec N.eq_dec a name1 then true
                else if list_eq_dec N.eq_dec a name2 then true else false;
     path_read_text :=
       fun a => if list_eq_dec N.eq_dec a name1 then Some text1
                else if list_eq_dec N.eq_dec a name2 then Some text2
                else None |}.

(** The passing scenario saved with LF and with CR LF line ends. *)
Definition shop_twice : World :=
  two_files (py "lf.erd") (Behaviour.join_lines Examples.shop)
    (py "crlf.erd") (Behaviour.join_lines_crlf Examples.shop).

(** A one-line relationship with two bracketed segments that hold no
    cardinality. *)
Definition twice_bad : list str := [py "relationship R { A [x] -> B [y] }"].

(** An entity whose name goes on with characters no identifier has. *)
Definition odd_name : list str := [py "entity A-b$ {"].

(** The cardinalities scenario, each line indented by a tab and followed by
    two spaces. *)
Definition cards_indented : list str :=
  map (fun l => [9%N] ++ l ++ py "  ") Examples.cards.

(** Two blank lines. *)
Definition blanks : list str := [py "   "; []].


End Cases.

(* ================================================================== *)
(** * Facts about the string operations *)

Section PyFacts.

Local Open Scope N_scope.

Lemma startswith_app (p rest : str) : startswith (p ++ rest) p = true.
Proof.
  induction p as [|c p IH]; simpl; [reflexivity|].
  now rewrite N.eqb_refl.
Qed.

Lemma startswith_prefix (s p : str) :
  startswith s p = true <-> exists rest, s = p ++ rest.
Proof.
  split.
  - revert s. induction p as [|c p IH]; intros s H.
    + now exists s.
    + destruct s as [|d s]; simpl in H; [discriminate|].
      destruct (N.eqb_spec d c) as [->|]; [|discriminate].
      destruct (IH _ H) as [rest ->]. now exists rest.
  - intros [rest ->]. apply startswith_app.
Qed.

Lemma endswith_suffix (s q : str) :
  endswith s q = true <-> exists front, s = front ++ q.
Proof.
  unfold endswith. rewrite startswith_prefix. split.
  - intros [rest H]. exists (rev rest).
    rewrite <- (rev_involutive s), H, rev_app_distr.
    now rewrite rev_involutive.
  - intros [front ->]. exists (rev front). apply rev_app_distr.
Qed.

Lemma trimmed_starts_iff (p l : str) :
  Spec.trimmed_starts p l <-> startswith (strip l) p = true.
Proof. unfold Spec.trimmed_starts. now rewrite startswith_prefix. Qed.

Lemma trimmed_ends_iff (q l : str) :
  Spec.trimmed_ends q l <-> endswith (strip l) q = true.
Proof. unfold Spec.trimmed_ends. now rewrite endswith_suffix. Qed.

(** [c in s] for a single character is membership. *)
Lemma contains_char (s : str) (c : char) :
  contains s [c] = true <-> In c s.
Proof.
  induction s as [|d s IH]; simpl.
  - split; [discriminate | tauto].
  - destruct (N.eqb_spec d c) as [->|Hne].
    + split; auto.
    + rewrite IH. split; [auto | intros [H|H]; [contradiction | assumption]].
Qed.

(** [sub in s] is: [s] has [sub] as a factor. *)
Lemma contains_factor (s sub : str) :
  contains s sub = true <-> exists pre post, s = pre ++ sub ++ post.
Proof.
  induction s as [|d s IH]; simpl.
  - destruct (startswith [] sub) eqn:E.
    + split; auto. intros _. apply startswith_prefix in E.
      destruct E as [rest E]. exists [], rest. exact E.
    + split; [discriminate|]. intros (pre & post & H).
      destruct pre; [|discriminate]. simpl in H.
      assert (startswith [] sub = true)
        by (apply startswith_prefix; now exists post).
      congruence.
  - destruct (startswith (d :: s) sub) eqn:E.
    + split; auto. intros _. apply startswith_prefix in E.
      destruct E as [rest E]. exists [], rest. exact E.
    + rewrite IH. split.
      * intros (pre & post & ->). now exists (d :: pre), post.
      * intros (pre & post & H). destruct pre as [|e pre].
        -- simpl in H.
           assert (startswith (d :: s) sub = true)
             by (apply startswith_prefix; now exists post).
           congruence.
        -- injection H as _ ->. now exists pre, post.
Qed.

(** [s.count(c)] for a single character is the number of its occurrences. *)
Lemma count_char (s : str) (c : char) :
  count s [c] = count_occ N.eq_dec s c.
Proof.
  unfold count. induction s as [|d s IH]; simpl; [reflexivity|].
  destruct (N.eq_dec d c) as [->|Hne].
  - now rewrite N.eqb_refl, IH.
  - destruct (N.eqb_spec d c); [contradiction | exact IH].
Qed.

Lemma enumerate_cons (A : Type) (a : A) (l : list A) (start : nat) :
  enumerate (a :: l) start = (start, a) :: enumerate l (S start).
Proof. reflexivity. Qed.

Lemma enumerate_app (A : Type) (l1 l2 : list A) (start : nat) :
  enumerate (l1 ++ l2) start
  = enumerate l1 start ++ enumerate l2 (start + List.length l1).
Proof.
  revert start. induction l1 as [|a l1 IH]; intros start; simpl.
  - now rewrite Nat.add_0_r.
  - rewrite !enumerate_cons, IH. simpl. do 3 f_equal. lia.
Qed.

Lemma line_at_split (lines : list str) (n : nat) (l : str) :
  line_at lines n = Some l ->
  exists l1 l2, lines = l1 ++ l :: l2 /\ List.length l1 = (n - 1)%nat
                /\ (1 <= n <= List.length lines)%nat.
Proof.
  destruct n as [|k]; simpl; [discriminate|]. intros H.
  destruct (nth_error_split _ _ H) as (l1 & l2 & -> & Hlen).
  exists l1, l2. rewrite length_app. simpl. repeat split; lia.
Qed.

Lemma line_at_app (l1 l2 : list str) (l : str) :
  line_at (l1 ++ l :: l2) (S (List.length l1)) = Some l.
Proof. simpl. now rewrite nth_error_app2, Nat.sub_diag by lia. Qed.

End PyFacts.

(* ================================================================== *)
(** * The matcher decides the language of a pattern *)

Section ReFacts.

Local Open Scope N_scope.

Lemma lang_void_inv (s : str) : ~ lang Void s.
Proof. unfold Void. intros H. inversion H. discriminate. Qed.

Lemma lang_cat_inv (r1 r2 : re) (w : str) :
  lang (Cat r1 r2) w -> exists u v, w = u ++ v /\ lang r1 u /\ lang r2 v.
Proof. intros H. inversion H; subst. eauto. Qed.

Lemma lang_alt_inv (r1 r2 : re) (w : str) :
  lang (Alt r1 r2) w -> lang r1 w \/ lang r2 w.
Proof. intros H. inversion H; subst; auto. Qed.

Lemma lang_lit_inv (c : char) (w : str) : lang (Lit c) w -> w = [c].
Proof. intros H. now inversion H. Qed.

Lemma lang_class_inv (p : char -> bool) (w : str) :
  lang (Class p) w -> exists c, w = [c] /\ p c = true.
Proof. intros H. inversion H; subst. eauto. Qed.

Lemma lang_eps_inv (w : str) : lang Eps w -> w = [].
Proof. intros H. now inversion H. Qed.

Lemma nullable_lang (r : re) : nullable r = true <-> lang r [].
Proof.
  induction r as [| c | | p | r1 IH1 r2 IH2 | r1 IH1 r2 IH2 | r IH]; simpl.
  - split; [constructor | reflexivity].
  - split; [discriminate | intros H; inversion H].
  - split; [discriminate | intros H; inversion H].
  - split; [discriminate | intros H; inversion H].
  - rewrite andb_true_iff, IH1, IH2. split.
    + intros [H1 H2]. change (@nil char) with (@nil char ++ []).
      now constructor.
    + intros H. apply lang_cat_inv in H. destruct H as (u & v & E & Hu & Hv).
      symmetry in E. apply app_eq_nil in E. destruct E; subst. auto.
  - rewrite orb_true_iff, IH1, IH2. split.
    + intros [H|H]; [now apply lang_alt_l | now apply lang_alt_r].
    + apply lang_alt_inv.
  - split; [constructor | reflexivity].
Qed.

(** A non-empty word of a starred pattern starts with a non-empty word of
    the pattern. *)
Lemma lang_star_cons_inv (r : re) (c : char) (s : str) :
  lang (Star r) (c :: s) ->
  exists u v, s = u ++ v /\ lang r (c :: u) /\ lang (Star r) v.
Proof.
  intros H. remember (Star r) as q eqn:Eq. remember (c :: s) as w eqn:Ew.
  revert s Ew.
  induction H as [ | | | | | | | | r' u v Hu _ Hv IHv]; intros s Ew;
    try discriminate.
  injection Eq as ->.
  destruct u as [|d u].
  - simpl in Ew. now apply IHv.
  - simpl in Ew. injection Ew as -> <-. now exists u, v.
Qed.

Lemma deriv_lang (c : char) (r : re) (s : str) :
  lang (deriv c r) s <-> lang r (c :: s).
Proof.
  revert s.
  induction r as [| d | | p | r1 IH1 r2 IH2 | r1 IH1 r2 IH2 | r IH];
    intros s; simpl.
  - split; intros H; [now apply lang_void_inv in H | inversion H].
  - destruct (N.eqb_spec c d) as [->|Hne]; split; intros H.
    + apply lang_eps_inv in H. subst. constructor.
    + apply lang_lit_inv in H. injection H as ->. constructor.
    + now apply lang_void_inv in H.
    + apply lang_lit_inv in H. congruence.
  - destruct (N.eqb_spec c 0x0A) as [->|Hne]; split; intros H.
    + now apply lang_void_inv in H.
    + inversion H; subst. congruence.
    + apply lang_eps_inv in H. subst. now constructor.
    + inversion H; subst. constructor.
  - destruct (p c) eqn:Hp; split; intros H.
    + apply lang_eps_inv in H. subst. now constructor.
    + apply lang_class_inv in H. destruct H as (c' & E & _).
      injection E as <- ->. constructor.
    + now apply lang_void_inv in H.
    + apply lang_class_inv in H. destruct H as (c' & E & Hc).
      injection E as <- ->. congruence.
  - assert (Hcat : forall u v, lang (deriv c r1) u -> lang r2 v ->
                               lang (Cat r1 r2) (c :: u ++ v)).
    { intros u v Hu Hv. change (c :: u ++ v) with ((c :: u) ++ v).
      constructor; [now apply IH1 | assumption]. }
    assert (Hinv : lang (Cat r1 r2) (c :: s) ->
                   (exists u v, s = u ++ v /\ lang (deriv c r1) u /\ lang r2 v)
                   \/ (lang r1 [] /\ lang (deriv c r2) s)).
    { intros H. apply lang_cat_inv in H. destruct H as (u & v & E & Hu & Hv).
      destruct u as [|d u]; simpl in E.
      - right. subst v. split; [assumption | now apply IH2].
      - injection E as <- ->. left. exists u, v.
        repeat split; [now apply IH1 | assumption]. }
    destruct (nullable r1) eqn:Hn; split; intros H.
    + apply lang_alt_inv in H. destruct H as [H|H].
      * apply lang_cat_inv in H. destruct H as (u & v & -> & Hu & Hv). auto.
      * change (c :: s) with ([] ++ c :: s).
        constructor; [now apply nullable_lang | now apply IH2].
    + destruct (Hinv H) as [(u & v & -> & Hu & Hv) | [_ H2]].
      * apply lang_alt_l. now constructor.
      * now apply lang_alt_r.
    + apply lang_cat_inv in H. destruct H as (u & v & -> & Hu & Hv). auto.
    + destruct (Hinv H) as [(u & v & -> & Hu & Hv) | [H1 _]].
      * now constructor.
      * apply nullable_lang in H1. congruence.
  - split; intros H.
    + apply lang_alt_inv in H.
      destruct H as [H|H]; [apply lang_alt_l, IH1 | apply lang_alt_r, IH2];
        assumption.
    + apply lang_alt_inv in H.
      destruct H as [H|H]; [apply lang_alt_l, IH1 | apply lang_alt_r, IH2];
        assumption.
  - split; intros H.
    + apply lang_cat_inv in H. destruct H as (u & v & -> & Hu & Hv).
      change (c :: u ++ v) with ((c :: u) ++ v).
      constructor; [now apply IH | assumption].
    + apply lang_star_cons_inv in H. destruct H as (u & v & -> & Hu & Hv).
      constructor; [now apply IH | assumption].
Qed.

(** [match]: some prefix of the text is a word of the pattern. *)
Theorem re_match_spec (r : re) (s : str) :
  re_match r s = true <-> exists u v, s = u ++ v /\ lang r u.
Proof.
  revert r. induction s as [|c s IH]; intros r; simpl.
  - destruct (nullable r) eqn:Hn.
    + split; auto. intros _. exists [], []. split; [reflexivity|].
      now apply nullable_lang.
    + split; [discriminate|]. intros (u & v & E & Hu).
      symmetry in E. apply app_eq_nil in E. destruct E; subst.
      apply nullable_lang in Hu. congruence.
  - destruct (nullable r) eqn:Hn.
    + split; auto. intros _. exists [], (c :: s). split; [reflexivity|].
      now apply nullable_lang.
    + rewrite IH. split.
      * intros (u & v & -> & Hu). exists (c :: u), v.
        split; [reflexivity | now apply deriv_lang].
      * intros (u & v & E & Hu). destruct u as [|d u].
        -- apply nullable_lang in Hu. congruence.
        -- injection E as <- ->. exists u, v.
           split; [reflexivity | now apply deriv_lang].
Qed.

(** [search]: some factor of the text is a word of the pattern. *)
Theorem re_search_spec (r : re) (s : str) :
  re_search r s = true <-> exists a u v, s = a ++ u ++ v /\ lang r u.
Proof.
  induction s as [|c s IH]; cbn [re_search].
  - destruct (re_match r []) eqn:Hm.
    + split; auto. intros _. apply re_match_spec in Hm.
      destruct Hm as (u & v & E & Hu). now exists [], u, v.
    + split; [discriminate|]. intros (a & u & v & E & Hu).
      destruct a; [|discriminate]. simpl in E.
      assert (re_match r [] = true) by (apply re_match_spec; eauto).
      congruence.
  - destruct (re_match r (c :: s)) eqn:Hm.
    + split; auto. intros _. apply re_match_spec in Hm.
      destruct Hm as (u & v & E & Hu). now exists [], u, v.
    + rewrite IH. split.
      * intros (a & u & v & -> & Hu). now exists (c :: a), u, v.
      * intros (a & u & v & E & Hu). destruct a as [|d a].
        -- simpl in E.
           assert (re_match r (c :: s) = true) by (apply re_match_spec; eauto).
           congruence.
        -- injection E as _ ->. now exists a, u, v.
Qed.

(** ** The languages of the building blocks *)

Lemma lang_Str (k w : str) : lang (Str k) w <-> w = k.
Proof.
  revert w. induction k as [|c k IH]; intros w; simpl.
  - split; [apply lang_eps_inv | intros ->; constructor].
  - split.
    + intros H. apply lang_cat_inv in H. destruct H as (u & v & -> & Hu & Hv).
      apply lang_lit_inv in Hu. apply IH in Hv. now subst.
    + intros ->. change (c :: k) with ([c] ++ k).
      constructor; [constructor | now apply IH].
Qed.

Lemma lang_star_class (p : char -> bool) (w : str) :
  lang (Star (Class p)) w <-> Forall (fun c => p c = true) w.
Proof.
  split.
  - induction w as [|c w IH]; intros H; [constructor|].
    apply lang_star_cons_inv in H. destruct H as (u & v & -> & Hu & Hv).
    apply lang_class_inv in Hu. destruct Hu as (c' & E & Hc).
    injection E as <- ->. constructor; [assumption | now apply IH].
  - induction 1 as [|c w Hc _ IH]; [constructor|].
    change (c :: w) with ([c] ++ w).
    constructor; [now constructor | assumption].
Qed.

Lemma lang_plus_class (p : char -> bool) (w : str) :
  lang (Plus (Class p)) w <-> w <> [] /\ Forall (fun c => p c = true) w.
Proof.
  unfold Plus. split.
  - intros H. apply lang_cat_inv in H. destruct H as (u & v & -> & Hu & Hv).
    apply lang_class_inv in Hu. destruct Hu as (c & -> & Hc).
    apply lang_star_class in Hv. split; [discriminate | now constructor].
  - intros [Hne H]. destruct w as [|c w]; [contradiction|].
    inversion H; subst. change (c :: w) with ([c] ++ w).
    constructor; [now constructor | now apply lang_star_class].
Qed.

End ReFacts.

(* ================================================================== *)
(** * The declaration patterns accept the declarations of the specification *)

Section Declarations.

Lemma re_match_declaration (kw s : str) :
  re_match
    (Cat (Str kw)
       (Cat (Plus (Class isspace))
          (Cat (Class alpha_us) (Star (Class alnum_us))))) s = true
  <-> Spec.declaration kw s.
Proof.
  rewrite re_match_spec. unfold Spec.declaration, Spec.spaces, Spec.identifier.
  split.
  - intros (u & v & -> & H).
    apply lang_cat_inv in H. destruct H as (k & u1 & -> & Hk & H).
    apply lang_Str in Hk. subst k.
    apply lang_cat_inv in H. destruct H as (sp & u2 & -> & Hsp & H).
    apply lang_plus_class in Hsp.
    apply lang_cat_inv in H. destruct H as (c1 & cs & -> & Hc & Hcs).
    apply lang_class_inv in Hc. destruct Hc as (c & -> & Hc).
    apply lang_star_class in Hcs.
    exists sp, (c :: cs), v. repeat split; try tauto.
    + now rewrite <- !app_assoc.
    + exists c, cs. auto.
  - intros (sp & id & rest & -> & Hsp & c & cs & -> & Hc & Hcs).
    exists (kw ++ sp ++ c :: cs), rest. split.
    + now rewrite <- !app_assoc.
    + constructor; [now apply lang_Str|].
      constructor; [now apply lang_plus_class|].
      change (c :: cs) with ([c] ++ cs).
      constructor; [now constructor | now apply lang_star_class].
Qed.

Lemma entity_match_iff (s : str) :
  re_match ENTITY_DECL s || re_match WEAK_ENTITY_DECL s = true
  <-> Spec.entity_declaration s.
Proof.
  rewrite orb_true_iff. unfold ENTITY_DECL, WEAK_ENTITY_DECL.
  rewrite !re_match_declaration. unfold Spec.entity_declaration. split.
  - intros [H|H]; [exists [] | exists (py "weak ")]; auto.
  - intros (weak & [-> | ->] & H); auto.
Qed.

Lemma relationship_match_iff (s : str) :
  re_match REL_DECL s = true <-> Spec.relationship_declaration s.
Proof. apply re_match_declaration. Qed.

End Declarations.

(* ================================================================== *)
(** * Loops that only append *)

Section Loops.
Variables (S A B : Type).

(** A loop whose body appends to the list it is given appends the
    concatenation of what each iteration appends. *)
Lemma fold_left_append (step : list B -> A -> list B) :
  (forall acc a, step acc a = acc ++ step [] a) ->
  forall l acc, fold_left step l acc = acc ++ flat_map (step []) l.
Proof.
  intros Hstep. induction l as [|a l IH]; intros acc; simpl.
  - now rewrite app_nil_r.
  - now rewrite IH, Hstep, <- app_assoc.
Qed.

Variable step : list B * S -> A -> list B * S.
Hypothesis step_append :
  forall acc st a, step (acc, st) a = (acc ++ emit_of step st a, next_of step st a).

Lemma fold_left_machine (l : list A) (acc : list B) (st : S) :
  fold_left step l (acc, st) = (acc ++ run_emit step st l, run_state step st l).
Proof.
  revert acc st. induction l as [|a l IH]; intros acc st; simpl.
  - now rewrite app_nil_r.
  - now rewrite step_append, IH, <- app_assoc.
Qed.

Lemma run_state_app (l1 l2 : list A) (st : S) :
  run_state step st (l1 ++ l2) = run_state step (run_state step st l1) l2.
Proof. revert st. induction l1; intros; simpl; auto. Qed.

Lemma run_emit_app (l1 l2 : list A) (st : S) :
  run_emit step st (l1 ++ l2)
  = run_emit step st l1 ++ run_emit step (run_state step st l1) l2.
Proof.
  revert st. induction l1 as [|a l1 IH]; intros st; simpl; [reflexivity|].
  now rewrite IH, app_assoc.
Qed.

(** What the loop emits is emitted by one iteration, in the state the
    iterations before it leave. *)
Lemma in_run_emit (x : B) (l : list A) (st : S) :
  In x (run_emit step st l) <->
  exists l1 a l2, l = l1 ++ a :: l2
                  /\ In x (emit_of step (run_state step st l1) a).
Proof.
  revert st. induction l as [|a l IH]; intros st; simpl.
  - split; [tauto|]. intros (l1 & a & l2 & E & _). now destruct l1.
  - rewrite in_app_iff, IH. split.
    + intros [H | (l1 & b & l2 & -> & H)].
      * now exists [], a, l.
      * now exists (a :: l1), b, l2.
    + intros (l1 & b & l2 & E & H). destruct l1 as [|a' l1].
      * injection E as <- <-. now left.
      * injection E as <- ->. right. now exists l1, b, l2.
Qed.
End Loops.

Section Enumerate.

Lemma in_enumerate (lines : list str) (start i : nat) (l : str) :
  In (i, l) (enumerate lines start) <->
  start <= i /\ nth_error lines (i - start) = Some l.
Proof.
  revert start. induction lines as [|a lines IH]; intros start.
  - simpl. split; [tauto|]. intros [_ H]. now destruct (i - start).
  - rewrite enumerate_cons. simpl. rewrite IH. split.
    + intros [E | [Hle H]].
      * injection E as <- <-. rewrite Nat.sub_diag. auto.
      * split; [lia|]. replace (i - start) with (Datatypes.S (i - Datatypes.S start)) by lia.
        exact H.
    + intros [Hle H]. destruct (i - start) as [|k] eqn:E.
      * left. injection H as ->. f_equal. lia.
      * right. split; [lia|]. replace (i - Datatypes.S start) with k by lia.
        exact H.
Qed.

(** [enumerate(lines, start=1)] pairs each line with its number. *)
Lemma in_enumerate_1 (lines : list str) (i : nat) (l : str) :
  In (i, l) (enumerate lines 1) <-> line_at lines i = Some l.
Proof.
  rewrite in_enumerate. destruct i as [|k]; simpl.
  - split; [lia | discriminate].
  - rewrite Nat.sub_0_r. split; [tauto | split; [lia | assumption]].
Qed.

Lemma line_at_bounds (lines : list str) (i : nat) (l : str) :
  line_at lines i = Some l -> 1 <= i <= List.length lines.
Proof.
  destruct i as [|k]; simpl; [discriminate|]. intros H.
  assert (k < List.length lines) by (apply nth_error_Some; congruence). lia.
Qed.

Lemma firstn_app_le (l1 l2 : list str) (n : nat) :
  n <= List.length l1 -> firstn n (l1 ++ l2) = firstn n l1.
Proof.
  intros H. rewrite firstn_app.
  replace (n - List.length l1) with 0 by lia. simpl. apply app_nil_r.
Qed.

Lemma line_at_app_le (l1 l2 : list str) (i : nat) :
  i <= List.length l1 -> line_at (l1 ++ l2) i = line_at l1 i.
Proof.
  destruct i as [|k]; simpl; [reflexivity|]. intros H.
  apply nth_error_app1. lia.
Qed.

Lemma line_at_last (l1 : list str) (a : str) (i : nat) (l : str) :
  line_at (l1 ++ [a]) i = Some l ->
  (i <= List.length l1 /\ line_at l1 i = Some l)
  \/ (i = Datatypes.S (List.length l1) /\ l = a).
Proof.
  intros H. pose proof (line_at_bounds _ _ H) as Hb.
  rewrite length_app in Hb. simpl in Hb.
  destruct (Nat.eq_dec i (Datatypes.S (List.length l1))) as [->|Hne].
  - right. split; [reflexivity|].
    rewrite (line_at_app l1 [] a) in H. congruence.
  - left. split; [lia|]. rewrite <- H. symmetry. apply line_at_app_le. lia.
Qed.

Section EnumeratedLoop.
Variables (S B : Type).
Variable step : list B * S -> nat * str -> list B * S.

Lemma state_before_app_le (st : S) (l1 l2 : list str) (i : nat) :
  i <= Datatypes.S (List.length l1) ->
  state_before step st (l1 ++ l2) i = state_before step st l1 i.
Proof.
  intros H. unfold state_before. now rewrite firstn_app_le by lia.
Qed.

(** What the loop emits is emitted at some line [i], in the state the lines
    before [i] leave. *)
Lemma in_run_emit_lines (x : B) (st : S) (lines : list str) :
  In x (run_emit step st (enumerate lines 1)) <->
  exists i l, line_at lines i = Some l
              /\ In x (emit_of step (state_before step st lines i) (i, l)).
Proof.
  induction lines as [|a ls IH] using rev_ind.
  - simpl. split; [tauto|]. intros (i & l & H & _).
    destruct i as [|[|k]]; discriminate.
  - rewrite enumerate_app, run_emit_app, in_app_iff, IH. simpl.
    rewrite app_nil_r. split.
    + intros [(i & l & Hl & Hin) | Hin].
      * pose proof (line_at_bounds _ _ Hl) as Hb. exists i, l. split.
        -- now rewrite line_at_app_le by lia.
        -- now rewrite state_before_app_le by lia.
      * exists (Datatypes.S (List.length ls)), a. split.
        -- apply line_at_app.
        -- unfold state_before. simpl. rewrite Nat.sub_0_r.
           now rewrite firstn_app_le, firstn_all by lia.
    + intros (i & l & Hl & Hin).
      destruct (line_at_last _ _ _ Hl) as [[Hle Hl'] | [-> ->]].
      * left. exists i, l. split; [assumption|].
        now rewrite state_before_app_le in Hin by lia.
      * right. unfold state_before in Hin. simpl in Hin.
        rewrite Nat.sub_0_r in Hin.
        now rewrite firstn_app_le, firstn_all in Hin by lia.
Qed.
End EnumeratedLoop.

End Enumerate.

(* ================================================================== *)
(** * [check_file] check by check *)

Section Checks.

Lemma check_header_append (lines : list str) (issues : list Issue) :
  check_header lines issues = issues ++ check_header lines [].
Proof.
  unfold check_header. destruct lines as [|l0 rest]; [reflexivity|].
  destruct (negb _); [reflexivity | now rewrite app_nil_r].
Qed.

Lemma check_notation_append (lines : list str) (issues : list Issue) :
  check_notation lines issues = issues ++ check_notation lines [].
Proof.
  unfold check_notation.
  destruct (negb _); [reflexivity | now rewrite app_nil_r].
Qed.

Lemma brace_delta_count (l : str) :
  (Z.of_nat (count l (py "{")) - Z.of_nat (count l (py "}")))%Z
  = Spec.brace_delta l.
Proof.
  unfold Spec.brace_delta.
  change (py "{") with [ch "{"]. change (py "}") with [ch "}"].
  now rewrite !count_char.
Qed.

Lemma brace_step_eq (acc : list Issue) (ob : Z) (i : nat) (l : str) :
  brace_step (acc, ob) (i, l)
  = if (ob + Spec.brace_delta l <? 0)%Z
    then (acc ++ [UnmatchedClosingBrace i], 0%Z)
    else (acc, (ob + Spec.brace_delta l)%Z).
Proof.
  unfold brace_step. rewrite <- brace_delta_count.
  replace (ob + Z.of_nat (count l (py "{")) - Z.of_nat (count l (py "}")))%Z
    with (ob + (Z.of_nat (count l (py "{")) - Z.of_nat (count l (py "}"))))%Z
    by lia.
  reflexivity.
Qed.

Lemma brace_emit_eq (ob : Z) (i : nat) (l : str) :
  emit_of brace_step ob (i, l)
  = if (ob + Spec.brace_delta l <? 0)%Z then [UnmatchedClosingBrace i] else [].
Proof.
  unfold emit_of. rewrite brace_step_eq. now destruct (_ <? _)%Z.
Qed.

Lemma brace_next_eq (ob : Z) (i : nat) (l : str) :
  next_of brace_step ob (i, l)
  = if (ob + Spec.brace_delta l <? 0)%Z then 0%Z
    else (ob + Spec.brace_delta l)%Z.
Proof.
  unfold next_of. rewrite brace_step_eq. now destruct (_ <? _)%Z.
Qed.

Lemma brace_step_append (acc : list Issue) (ob : Z) (il : nat * str) :
  brace_step (acc, ob) il
  = (acc ++ emit_of brace_step ob il, next_of brace_step ob il).
Proof.
  destruct il as [i l]. rewrite brace_emit_eq, brace_next_eq, brace_step_eq.
  destruct (_ <? _)%Z; [reflexivity | now rewrite app_nil_r].
Qed.

Lemma check_braces_eq (lines : list str) (issues : list Issue) :
  check_braces lines issues
  = issues ++ run_emit brace_step 0%Z (enumerate lines 1)
      ++ (if (run_state brace_step 0%Z (enumerate lines 1) =? 0)%Z
          then [] else [MismatchedBraces]).
Proof.
  unfold check_braces.
  rewrite (fold_left_machine brace_step brace_step_append).
  destruct (_ =? _)%Z; simpl.
  - now rewrite app_nil_r.
  - now rewrite <- app_assoc.
Qed.

Lemma check_braces_append (lines : list str) (issues : list Issue) :
  check_braces lines issues = issues ++ check_braces lines [].
Proof. now rewrite (check_braces_eq lines issues), (check_braces_eq lines []). Qed.

Lemma decl_step_append (acc : list Issue) (il : nat * str) :
  decl_step acc il = acc ++ decl_step [] il.
Proof.
  destruct il as [i l]. unfold decl_step.
  destruct (startswith (strip l) (py "entity ")
            || startswith (strip l) (py "weak entity "));
    destruct (negb (re_match ENTITY_DECL (strip l)
                    || re_match WEAK_ENTITY_DECL (strip l)));
    destruct (startswith (strip l) (py "relationship "));
    destruct (negb (re_match REL_DECL (strip l)));
    cbv iota; rewrite ?app_nil_l, ?app_nil_r, <- ?app_assoc; reflexivity.
Qed.

Lemma check_decls_eq (lines : list str) (issues : list Issue) :
  check_decls lines issues
  = issues ++ flat_map (decl_step []) (enumerate lines 1).
Proof. apply fold_left_append, decl_step_append. Qed.

Lemma card_token_step_append (i : nat) (l : str) (acc : list Issue) (t : str) :
  card_token_step i l acc t = acc ++ card_token_step i l [] t.
Proof.
  unfold card_token_step.
  destruct (contains t (py "[") && contains t (py "]"));
    destruct (negb (re_search card_closed t));
    destruct (contains t (py "|") && re_search card_role t);
    cbv iota; rewrite ?app_nil_l, ?app_nil_r; reflexivity.
Qed.

Lemma card_line_eq (i : nat) (l : str) (acc : list Issue) :
  card_line i l acc
  = acc ++ (if contains l (py "->")
            then flat_map (card_token_step i l []) (split l (py "->"))
            else []).
Proof.
  unfold card_line. destruct (contains l (py "->")).
  - apply fold_left_append. intros. apply card_token_step_append.
  - now rewrite app_nil_r.
Qed.

Lemma card_step_append (acc : list Issue) (rb : bool) (il : nat * str) :
  card_step (acc, rb) il
  = (acc ++ emit_of card_step rb il, next_of card_step rb il).
Proof.
  destruct il as [i l]. unfold emit_of, next_of, card_step.
  destruct (rel_enter rb l); simpl.
  - now rewrite (card_line_eq i l acc), (card_line_eq i l []).
  - now rewrite app_nil_r.
Qed.

Lemma check_cardinalities_eq (lines : list str) (issues : list Issue) :
  check_cardinalities lines issues
  = issues ++ run_emit card_step false (enumerate lines 1).
Proof.
  unfold check_cardinalities.
  now rewrite (fold_left_machine card_step card_step_append).
Qed.

Lemma quote_step_append (acc : list Issue) (il : nat * str) :
  quote_step acc il = acc ++ quote_step [] il.
Proof.
  destruct il as [i l]. unfold quote_step.
  destruct (contains l [dquote]); [reflexivity | now rewrite app_nil_r].
Qed.

Lemma check_quotes_eq (lines : list str) (issues : list Issue) :
  check_quotes lines issues
  = issues ++ flat_map (quote_step []) (enumerate lines 1).
Proof. apply fold_left_append, quote_step_append. Qed.

(** The issues of a document are those of the six checks, in the order of
    the checks. *)
Theorem check_lines_eq (lines : list str) :
  check_lines lines
  = check_header lines [] ++ check_notation lines []
      ++ check_braces lines []
      ++ flat_map (decl_step []) (enumerate lines 1)
      ++ run_emit card_step false (enumerate lines 1)
      ++ flat_map (quote_step []) (enumerate lines 1).
Proof.
  unfold check_lines.
  rewrite check_quotes_eq, check_cardinalities_eq, check_decls_eq.
  rewrite check_braces_append, check_notation_append.
  now rewrite <- !app_assoc.
Qed.

End Checks.

(* ================================================================== *)
(** * Where each issue comes from *)

Section Origins.

Lemma in_check_header (lines : list str) (x : Issue) :
  In x (check_header lines []) -> x = MissingHeader.
Proof.
  unfold check_header. destruct lines as [|l0 rest]; simpl.
  - intros [H|[]]. now symmetry.
  - destruct (negb _); simpl; [intros [H|[]]; now symmetry | tauto].
Qed.

Lemma in_check_notation (lines : list str) (x : Issue) :
  In x (check_notation lines []) -> x = MissingNotation.
Proof.
  unfold check_notation.
  destruct (negb _); simpl; [intros [H|[]]; now symmetry | tauto].
Qed.

Lemma in_decl_step (x : Issue) (i : nat) (l : str) :
  In x (decl_step [] (i, l)) <->
  (x = InvalidEntity i (strip l)
   /\ startswith (strip l) (py "entity ")
      || startswith (strip l) (py "weak entity ") = true
   /\ re_match ENTITY_DECL (strip l)
      || re_match WEAK_ENTITY_DECL (strip l) = false)
  \/ (x = InvalidRelationship i (strip l)
      /\ startswith (strip l) (py "relationship ") = true
      /\ re_match REL_DECL (strip l) = false).
Proof.
  unfold decl_step.
  destruct (startswith (strip l) (py "entity ")
            || startswith (strip l) (py "weak entity "));
    destruct (re_match ENTITY_DECL (strip l)
              || re_match WEAK_ENTITY_DECL (strip l));
    destruct (startswith (strip l) (py "relationship "));
    destruct (re_match REL_DECL (strip l));
    cbv iota beta delta [negb]; cbn [app In];
    intuition (try discriminate; try congruence; auto).
Qed.

Lemma in_card_token_step (x : Issue) (i : nat) (l t : str) :
  In x (card_token_step i l [] t) <->
  x = UnrecognizedCardinality i (strip l)
  /\ contains t (py "[") = true /\ contains t (py "]") = true
  /\ re_search card_closed t = false
  /\ contains t (py "|") && re_search card_role t = false.
Proof.
  unfold card_token_step.
  destruct (contains t (py "[")); destruct (contains t (py "]"));
    destruct (re_search card_closed t);
    destruct (contains t (py "|") && re_search card_role t);
    cbv iota beta delta [negb andb]; cbn [app In];
    intuition (try discriminate; try congruence; auto).
Qed.

Lemma card_emit_eq (rb : bool) (i : nat) (l : str) :
  emit_of card_step rb (i, l)
  = if rel_enter rb l
    then if contains l (py "->")
         then flat_map (card_token_step i l []) (split l (py "->"))
         else []
    else [].
Proof.
  unfold emit_of, card_step. destruct (rel_enter rb l); simpl; [|reflexivity].
  now rewrite card_line_eq.
Qed.

Lemma card_next_eq (rb : bool) (i : nat) (l : str) :
  next_of card_step rb (i, l)
  = if rel_enter rb l then rel_leave true l else false.
Proof.
  unfold next_of, card_step. now destruct (rel_enter rb l).
Qed.

(** The state the cardinality loop holds after some lines is the flag alone:
    it does not depend on the issues found so far. *)
Lemma card_state_snd (l : list (nat * str)) (acc : list Issue) (rb : bool) :
  snd (fold_left card_step l (acc, rb)) = run_state card_step rb l.
Proof. now rewrite (fold_left_machine card_step card_step_append). Qed.

Lemma rel_block_at_eq (lines : list str) (i : nat) :
  rel_block_at lines i
  = match line_at lines i with
    | None => false
    | Some l => rel_enter (state_before card_step false lines i) l
    end.
Proof.
  unfold rel_block_at, state_before. destruct (line_at lines i); [|reflexivity].
  now rewrite card_state_snd.
Qed.

Lemma in_quote_step (x : Issue) (i : nat) (l : str) :
  In x (quote_step [] (i, l)) <->
  x = QuotedIdentifiers i /\ contains l [dquote] = true.
Proof.
  unfold quote_step. destruct (contains l [dquote]); cbn [app In];
    intuition (try discriminate; try congruence; auto).
Qed.

Lemma in_flat_map_lines (f : nat * str -> list Issue) (lines : list str)
    (x : Issue) :
  In x (flat_map f (enumerate lines 1)) <->
  exists i l, line_at lines i = Some l /\ In x (f (i, l)).
Proof.
  rewrite in_flat_map. split.
  - intros ([i l] & Hin & Hx). apply in_enumerate_1 in Hin. eauto.
  - intros (i & l & Hl & Hx). exists (i, l).
    split; [now apply in_enumerate_1 | assumption].
Qed.

(** An unmatched-brace issue for line [i] is raised exactly when the counter
    the loop holds before line [i], plus the line's delta, is negative. *)
Lemma in_brace_emit (lines : list str) (x : Issue) :
  In x (run_emit brace_step 0%Z (enumerate lines 1)) <->
  exists i l, line_at lines i = Some l /\ x = UnmatchedClosingBrace i
              /\ (state_before brace_step 0%Z lines i
                  + Spec.brace_delta l <? 0)%Z = true.
Proof.
  rewrite in_run_emit_lines. split.
  - intros (i & l & Hl & Hin). exists i, l. rewrite brace_emit_eq in Hin.
    destruct (_ <? _)%Z; simpl in Hin; [|contradiction].
    destruct Hin as [<-|[]]. auto.
  - intros (i & l & Hl & -> & Hneg). exists i, l. split; [assumption|].
    rewrite brace_emit_eq, Hneg. now left.
Qed.

(** A cardinality issue for line [i] is raised exactly when the flag is set
    at that line, the line has an arrow, and one of its pieces has both
    brackets and matches neither inline pattern. *)
Lemma in_card_emit (lines : list str) (x : Issue) :
  In x (run_emit card_step false (enumerate lines 1)) <->
  exists i l t,
    line_at lines i = Some l /\ x = UnrecognizedCardinality i (strip l)
    /\ rel_block_at lines i = true
    /\ contains l (py "->") = true
    /\ In t (split l (py "->"))
    /\ contains t (py "[") = true /\ contains t (py "]") = true
    /\ re_search card_closed t = false
    /\ contains t (py "|") && re_search card_role t = false.
Proof.
  rewrite in_run_emit_lines. split.
  - intros (i & l & Hl & Hin). rewrite card_emit_eq in Hin.
    destruct (rel_enter _ l) eqn:Hrb; [|contradiction].
    destruct (contains l (py "->")) eqn:Harrow; [|contradiction].
    apply in_flat_map in Hin. destruct Hin as (t & Ht & Hin).
    apply in_card_token_step in Hin.
    exists i, l, t. rewrite rel_block_at_eq, Hl. tauto.
  - intros (i & l & t & Hl & -> & Hrb & Harrow & Ht & H).
    exists i, l. split; [assumption|].
    rewrite rel_block_at_eq, Hl in Hrb.
    rewrite card_emit_eq, Hrb, Harrow. apply in_flat_map. exists t.
    split; [assumption|]. apply in_card_token_step. tauto.
Qed.

(** Every issue of a document is of one of eight forms, and an issue with a
    line number carries the number of a line of the document. *)
Lemma in_check_lines (lines : list str) (x : Issue) :
  In x (check_lines lines) ->
  x = MissingHeader \/ x = MissingNotation \/ x = MismatchedBraces
  \/ exists i l, line_at lines i = Some l
       /\ (x = UnmatchedClosingBrace i
           \/ x = InvalidEntity i (strip l)
           \/ x = InvalidRelationship i (strip l)
           \/ x = UnrecognizedCardinality i (strip l)
           \/ x = QuotedIdentifiers i).
Proof.
  rewrite check_lines_eq, check_braces_eq. cbn [app]. rewrite !in_app_iff.
  intros [H|[H|[[H|H]|[H|[H|H]]]]].
  - left. now apply in_check_header in H.
  - right. left. now apply in_check_notation in H.
  - apply in_brace_emit in H. destruct H as (i & l & Hl & -> & _).
    do 3 right. exists i, l. tauto.
  - destruct (_ =? _)%Z; simpl in H; [contradiction|].
    destruct H as [<-|[]]. tauto.
  - apply in_flat_map_lines in H. destruct H as (i & l & Hl & H).
    apply in_decl_step in H. do 3 right. exists i, l.
    destruct H as [(-> & _)|(-> & _)]; tauto.
  - apply in_card_emit in H. destruct H as (i & l & t & Hl & -> & _).
    do 3 right. exists i, l. tauto.
  - apply in_flat_map_lines in H. destruct H as (i & l & Hl & H).
    apply in_quote_step in H. destruct H as [-> _].
    do 3 right. exists i, l. tauto.
Qed.

End Origins.

(* ================================================================== *)
(** * Issues and their texts *)

Section IssueTexts.

Local Open Scope N_scope.

Lemma py_inj (a b : string) : py a = py b -> a = b.
Proof.
  unfold py. intros H.
  apply (f_equal (map ascii_of_N)) in H. rewrite !map_map in H.
  rewrite !(map_ext _ (fun x => x) ascii_N_embedding), !map_id in H.
  rewrite <- (string_of_list_ascii_of_string a),
    <- (string_of_list_ascii_of_string b).
  now f_equal.
Qed.

Lemma str_of_nat_inj (i j : nat) : str_of_nat i = str_of_nat j -> i = j.
Proof.
  unfold str_of_nat. intros H. apply py_inj in H.
  apply (f_equal NilEmpty.uint_of_string) in H. rewrite !NilEmpty.usu in H.
  injection H as H. now apply DecimalNat.Unsigned.to_uint_inj.
Qed.

Lemma str_of_nat_digits (i : nat) :
  Forall (fun c => is_digit c = true) (str_of_nat i).
Proof.
  unfold str_of_nat. generalize (Nat.to_uint i). intros d.
  induction d; simpl; constructor; (reflexivity || assumption).
Qed.

(** A run of digits ends where the first other character stands. *)
Lemma digits_then (d1 d2 r1 r2 : str) (c1 c2 : char) :
  Forall (fun c => is_digit c = true) d1 ->
  Forall (fun c => is_digit c = true) d2 ->
  is_digit c1 = false -> is_digit c2 = false ->
  d1 ++ c1 :: r1 = d2 ++ c2 :: r2 -> d1 = d2 /\ r1 = r2.
Proof.
  intros H1. revert d2. induction H1 as [|x d1 Hx _ IH]; intros d2 H2 Hc1 Hc2 E.
  - destruct H2 as [|y d2 Hy _]; simpl in E.
    + injection E as _ E. auto.
    + injection E as -> _. congruence.
  - destruct H2 as [|y d2 Hy H2]; simpl in E.
    + injection E as -> _. congruence.
    + injection E as -> E. destruct (IH d2 H2 Hc1 Hc2 E) as [-> ->]. auto.
Qed.

Lemma cited_inj (i j : nat) (r1 r2 : str) (c : char) :
  is_digit c = false ->
  str_of_nat i ++ c :: r1 = str_of_nat j ++ c :: r2 -> i = j /\ r1 = r2.
Proof.
  intros Hc E.
  destruct (@digits_then _ _ r1 r2 c c
              (str_of_nat_digits i) (str_of_nat_digits j) Hc Hc E)
    as [Hd Hr].
  split; [now apply str_of_nat_inj | assumption].
Qed.

Lemma quoted_inj (s1 s2 : str) :
  [dquote] ++ s1 ++ [dquote] = [dquote] ++ s2 ++ [dquote] -> s1 = s2.
Proof. intros H. apply app_inv_head in H. now apply app_inv_tail in H. Qed.

Ltac text_differs H :=
  apply (f_equal (firstn 9)) in H; cbv in H; discriminate H.

(** Different issues have different texts: the list of strings the source
    returns and the list of issues determine each other. *)
Theorem issue_text_inj (a b : Issue) : issue_text a = issue_text b -> a = b.
Proof.
  destruct a as [| | i | | i s | i s | i s | i];
    destruct b as [| | j | | j t | j t | j t | j];
    intros H; try reflexivity; try (text_differs H); unfold issue_text in H.
  - apply app_inv_head in H. now apply str_of_nat_inj in H; subst.
  - apply app_inv_head in H. apply cited_inj in H; [|reflexivity].
    destruct H as [-> H]. apply (app_inv_head [32]) in H.
    now apply quoted_inj in H; subst.
  - apply app_inv_head in H. apply cited_inj in H; [|reflexivity].
    destruct H as [-> H]. apply (app_inv_head [32]) in H.
    now apply quoted_inj in H; subst.
  - apply app_inv_head in H. apply cited_inj in H; [|reflexivity].
    destruct H as [-> H]. apply (app_inv_head [32]) in H.
    now apply quoted_inj in H; subst.
  - apply app_inv_head in H. apply cited_inj in H; [|reflexivity].
    now destruct H as [-> _].
Qed.

Lemma in_texts (l : list Issue) (x : Issue) :
  In (issue_text x) (map issue_text l) <-> In x l.
Proof.
  rewrite in_map_iff. split.
  - intros (y & E & H). apply issue_text_inj in E. now subst.
  - intros H. now exists x.
Qed.

Lemma count_texts (l : list Issue) (x : Issue) :
  count_occ (list_eq_dec N.eq_dec) (map issue_text l) (issue_text x)
  = count_occ Issue_eq_dec l x.
Proof.
  induction l as [|y l IH]; simpl; [reflexivity|].
  destruct (list_eq_dec N.eq_dec (issue_text y) (issue_text x)) as [E|E];
    destruct (Issue_eq_dec y x) as [E'|E'].
  - now rewrite IH.
  - apply issue_text_inj in E. contradiction.
  - subst. contradiction.
  - exact IH.
Qed.

End IssueTexts.

(* ================================================================== *)
(** * Line numbers (C9) *)

Section LineNumbers.

(** An issue that cites a line says so in its text. *)
Lemma issue_text_cites (x : Issue) (n : nat) :
  issue_line x = Some n ->
  exists pre post, issue_text x = pre ++ py " on line " ++ str_of_nat n ++ post.
Proof.
  destruct x as [| | i | | i s | i s | i s | i]; simpl; try discriminate;
    intros H; injection H as ->.
  - exists (py "Unmatched closing brace"), []. now rewrite app_nil_r.
  - exists (py "Invalid entity declaration"), (py ": " ++ [dquote] ++ s ++ [dquote]).
    reflexivity.
  - exists (py "Invalid relationship declaration"),
      (py ": " ++ [dquote] ++ s ++ [dquote]).
    reflexivity.
  - exists (py "Unrecognized cardinality"), (py ": " ++ [dquote] ++ s ++ [dquote]).
    reflexivity.
  - exists (py "Quoted identifiers or roles found"),
      (py ": bigER prefers unquoted names; using quotes may cause parser errors").
    reflexivity.
Qed.

(** C9. Every issue of [check_file] that cites a line number [n] has
    [1 <= n <= number of lines]; and the empty document yields exactly the
    header issue and the notation issue, which cite no line. *)
Theorem C9_cited_line_in_document (lines : list str) (x : Issue) (n : nat) :
  In x (check_lines lines) -> issue_line x = Some n ->
  1 <= n <= List.length lines
  /\ check_lines [] = [MissingHeader; MissingNotation]
  /\ issue_line MissingHeader = None /\ issue_line MissingNotation = None.
Proof.
  intros Hin Hn. split; [|repeat split].
  apply in_check_lines in Hin.
  destruct Hin as [-> | [-> | [-> | (i & l & Hl & H)]]]; try discriminate.
  apply line_at_bounds in Hl.
  destruct H as [-> | [-> | [-> | [-> | ->]]]]; simpl in Hn;
    injection Hn as <-; exact Hl.
Qed.

Lemma C9_cited_line_in_document_witness :
  1 <= 3 <= List.length Examples.two_strays
  /\ check_lines [] = [MissingHeader; MissingNotation]
  /\ issue_line MissingHeader = None /\ issue_line MissingNotation = None.
Proof.
  apply (@C9_cited_line_in_document Examples.two_strays (UnmatchedClosingBrace 3) 3).
  - vm_compute. tauto.
  - reflexivity.
Defined.

End LineNumbers.

(* ================================================================== *)
(** * Each check raises its own issues *)

Section OwnIssues.

Lemma check_lines_concat (lines : list str) :
  check_lines lines = List.concat (checks lines).
Proof.
  rewrite check_lines_eq. unfold checks. cbn [List.concat].
  rewrite (check_decls_eq lines []), (check_cardinalities_eq lines []),
    (check_quotes_eq lines []).
  cbn [app]. now rewrite app_nil_r.
Qed.

Lemma checks_own (lines : list str) (k : nat) (x : Issue) :
  In x (nth k (checks lines) []) -> issue_check x = k.
Proof.
  unfold checks.
  destruct k as [|[|[|[|[|[|k]]]]]]; cbn [nth]; intros H.
  - now apply in_check_header in H; subst.
  - now apply in_check_notation in H; subst.
  - rewrite check_braces_eq in H. cbn [app] in H. apply in_app_iff in H.
    destruct H as [H|H].
    + apply in_brace_emit in H. now destruct H as (i & l & _ & -> & _).
    + destruct (_ =? _)%Z; [contradiction | now destruct H as [<-|[]]].
  - rewrite check_decls_eq in H. cbn [app] in H.
    apply in_flat_map_lines in H. destruct H as (i & l & _ & H).
    apply in_decl_step in H. now destruct H as [(-> & _)|(-> & _)].
  - rewrite check_cardinalities_eq in H. cbn [app] in H.
    apply in_card_emit in H. now destruct H as (i & l & t & _ & -> & _).
  - rewrite check_quotes_eq in H. cbn [app] in H.
    apply in_flat_map_lines in H. destruct H as (i & l & _ & H).
    apply in_quote_step in H. now destruct H as [-> _].
  - destruct k; contradiction.
Qed.

Lemma count_occ_concat_own (parts : list (list Issue)) (x : Issue) (k : nat) :
  (forall j, j <> k -> ~ In x (nth j parts [])) ->
  count_occ Issue_eq_dec (List.concat parts) x
  = count_occ Issue_eq_dec (nth k parts []) x.
Proof.
  revert k. induction parts as [|p parts IH]; intros k H.
  - now destruct k.
  - cbn [List.concat]. rewrite count_occ_app. destruct k as [|k]; cbn [nth].
    + rewrite (IH (List.length parts)).
      * rewrite nth_overflow by lia. simpl. lia.
      * intros j Hj. destruct (Nat.lt_ge_cases j (List.length parts)).
        -- apply (H (Datatypes.S j)). lia.
        -- now rewrite nth_overflow.
    + rewrite (IH k).
      * assert (Hp : ~ In x p) by (apply (H 0); lia).
        apply (count_occ_not_In Issue_eq_dec) in Hp. lia.
      * intros j Hj. apply (H (Datatypes.S j)). lia.
Qed.

(** An issue occurs in the result as often as in the output of its check. *)
Lemma count_occ_own (lines : list str) (x : Issue) :
  count_occ Issue_eq_dec (check_lines lines) x
  = count_occ Issue_eq_dec (nth (issue_check x) (checks lines) []) x.
Proof.
  rewrite check_lines_concat. apply count_occ_concat_own.
  intros j Hj Hin. apply checks_own in Hin. congruence.
Qed.

Lemma in_own (lines : list str) (x : Issue) :
  In x (check_lines lines) <-> In x (nth (issue_check x) (checks lines) []).
Proof.
  rewrite (count_occ_In Issue_eq_dec), count_occ_own.
  symmetry. apply (count_occ_In Issue_eq_dec).
Qed.

End OwnIssues.

(* ================================================================== *)
(** * The header check (C5) and the notation check (C10) *)

Section HeaderNotation.

Lemma check_header_missing (lines : list str) :
  Spec.header_missing lines -> check_header lines [] = [MissingHeader].
Proof.
  intros [-> | (l0 & rest & -> & H)]; [reflexivity|].
  unfold check_header. rewrite trimmed_starts_iff in H.
  now destruct (startswith (strip l0) (py "erdiagram")).
Qed.

Lemma check_header_present (lines : list str) :
  ~ Spec.header_missing lines -> check_header lines [] = [].
Proof.
  intros H. destruct lines as [|l0 rest].
  - exfalso. apply H. now left.
  - unfold check_header.
    destruct (startswith (strip l0) (py "erdiagram")) eqn:E; [reflexivity|].
    exfalso. apply H. right. exists l0, rest. split; [reflexivity|].
    rewrite trimmed_starts_iff. congruence.
Qed.

Lemma header_missing_dec (lines : list str) :
  Spec.header_missing lines \/ ~ Spec.header_missing lines.
Proof.
  destruct lines as [|l0 rest]; [left; now left|].
  destruct (startswith (strip l0) (py "erdiagram")) eqn:E.
  - right. intros [H | (l & r & H & Hn)]; [discriminate|].
    injection H as <- <-. apply Hn, trimmed_starts_iff, E.
  - left. right. exists l0, rest. split; [reflexivity|].
    rewrite trimmed_starts_iff. congruence.
Qed.

(** C5. The header issue occurs exactly once if the document is empty or its
    first line, trimmed, does not start with [erdiagram], and not at all
    otherwise, whatever follows [erdiagram] on the first line; its text occurs
    as often among the strings [check_file] returns. *)
Theorem C5_header_issue (lines : list str) :
  (Spec.header_missing lines <->
   count_occ Issue_eq_dec (check_lines lines) MissingHeader = 1)
  /\ (~ Spec.header_missing lines <->
      count_occ Issue_eq_dec (check_lines lines) MissingHeader = 0)
  /\ count_occ (list_eq_dec N.eq_dec) (map issue_text (check_lines lines))
       (issue_text MissingHeader)
     = count_occ Issue_eq_dec (check_lines lines) MissingHeader
  /\ count_occ Issue_eq_dec (check_lines []) MissingHeader = 1
  /\ count_occ Issue_eq_dec (check_lines Examples.shop) MissingHeader = 0.
Proof.
  rewrite count_texts, count_occ_own. cbn [issue_check checks nth].
  repeat split; try (vm_compute; reflexivity).
  - intros H. now rewrite (check_header_missing H).
  - intros H. destruct (header_missing_dec lines) as [Hm|Hm]; [assumption|].
    rewrite (check_header_present Hm) in H. discriminate.
  - intros H. now rewrite (check_header_present H).
  - intros H Hm. rewrite (check_header_missing Hm) in H. discriminate.
Qed.

Lemma first_ten (lines : list str) (i : nat) (l : str) :
  1 <= i <= 10 -> line_at lines i = Some l -> In l (firstn 10 lines).
Proof.
  intros Hi Hl. destruct i as [|k]; [lia|]. simpl in Hl.
  apply nth_error_In with (n := k). rewrite nth_error_firstn.
  destruct (Nat.ltb_spec k 10); [assumption | lia].
Qed.

(** C10. If one of the first ten lines, trimmed, starts with [notation=],
    no notation issue is raised, whatever follows the equals sign; a line
    that is exactly [notation=] suffices although [NOTATION_DECL] does not
    match it. *)
Theorem C10_notation_prefix_only (lines : list str) (i : nat) (l : str) :
  1 <= i <= 10 -> line_at lines i = Some l ->
  Spec.trimmed_starts (py "notation=") l ->
  ~ In MissingNotation (check_lines lines)
  /\ ~ In MissingNotation (check_lines Examples.bare_notation)
  /\ re_match NOTATION_DECL (py "notation=") = false.
Proof.
  intros Hi Hl Hs. split.
  - rewrite in_own. cbn [issue_check checks nth]. unfold check_notation.
    assert (E : existsb (fun line => startswith (strip line) (py "notation="))
                  (firstn 10 lines) = true).
    { apply existsb_exists. exists l.
      split; [now apply (first_ten lines Hi) | now apply trimmed_starts_iff]. }
    rewrite E. simpl. tauto.
  - split; [|vm_compute; reflexivity].
    vm_compute. intuition discriminate.
Qed.

Lemma C10_notation_prefix_only_witness :
  ~ In MissingNotation (check_lines Examples.bare_notation)
  /\ ~ In MissingNotation (check_lines Examples.bare_notation)
  /\ re_match NOTATION_DECL (py "notation=") = false.
Proof.
  apply (@C10_notation_prefix_only Examples.bare_notation 2 (py "notation=")).
  - lia.
  - reflexivity.
  - exists []. vm_compute. reflexivity.
Defined.

End HeaderNotation.

(* ================================================================== *)
(** * The brace check (C3) *)

Section Braces.

Lemma counter_after_app (l1 l2 : list str) (k : nat) :
  k <= List.length l1 ->
  Spec.counter_after (l1 ++ l2) k = Spec.counter_after l1 k.
Proof.
  induction k as [|k IH]; intros Hk; simpl; [reflexivity|].
  rewrite IH by lia. now rewrite app_nth1 by lia.
Qed.

Lemma negative_at_app (l1 l2 : list str) (n : nat) :
  1 <= n <= List.length l1 ->
  Spec.negative_at (l1 ++ l2) n = Spec.negative_at l1 n.
Proof.
  intros Hn. unfold Spec.negative_at.
  rewrite counter_after_app by lia. now rewrite app_nth1 by lia.
Qed.

Lemma counter_after_last (ls : list str) (a : str) :
  Spec.counter_after (ls ++ [a]) (Datatypes.S (List.length ls))
  = (if (Spec.counter_after ls (List.length ls) + Spec.brace_delta a <? 0)%Z
     then 0 else Spec.counter_after ls (List.length ls) + Spec.brace_delta a)%Z.
Proof.
  simpl. rewrite counter_after_app by lia.
  now rewrite app_nth2, Nat.sub_diag by lia.
Qed.

(** The loop's counter is the counter of the specification. *)
Lemma brace_run_state (lines : list str) :
  run_state brace_step 0%Z (enumerate lines 1)
  = Spec.counter_after lines (List.length lines).
Proof.
  induction lines as [|a ls IH] using rev_ind; [reflexivity|].
  rewrite enumerate_app, run_state_app, IH, length_app. simpl.
  rewrite brace_next_eq, Nat.add_1_r. symmetry. apply counter_after_last.
Qed.

Lemma brace_state_before (lines : list str) (i : nat) :
  1 <= i <= List.length lines ->
  state_before brace_step 0%Z lines i = Spec.counter_after lines (i - 1).
Proof.
  intros Hi. unfold state_before. rewrite brace_run_state.
  rewrite length_firstn, Nat.min_l by lia.
  rewrite <- (firstn_skipn (i - 1) lines) at 2.
  apply eq_sym, counter_after_app. rewrite length_firstn. lia.
Qed.

(** The loop raises an issue at the lines where the counter turns negative,
    in order. *)
Lemma brace_run_emit (lines : list str) :
  run_emit brace_step 0%Z (enumerate lines 1)
  = map UnmatchedClosingBrace
      (filter (Spec.negative_at lines) (seq 1 (List.length lines))).
Proof.
  induction lines as [|a ls IH] using rev_ind; [reflexivity|].
  rewrite enumerate_app, run_emit_app, IH, brace_run_state, length_app.
  simpl. rewrite Nat.add_1_r, seq_S, filter_app, map_app, app_nil_r.
  f_equal.
  - f_equal. apply filter_ext_in. intros n Hn. apply in_seq in Hn.
    symmetry. apply negative_at_app. lia.
  - rewrite brace_emit_eq. simpl. unfold Spec.negative_at. simpl.
    rewrite Nat.sub_0_r, counter_after_app by lia.
    rewrite app_nth2, Nat.sub_diag by lia. simpl.
    now destruct (_ <? _)%Z.
Qed.

(** The brace check, in closed form. *)
Lemma check_braces_spec (lines : list str) :
  check_braces lines []
  = map UnmatchedClosingBrace
      (filter (Spec.negative_at lines) (seq 1 (List.length lines)))
    ++ (if (Spec.counter_after lines (List.length lines) =? 0)%Z
        then [] else [MismatchedBraces]).
Proof.
  rewrite check_braces_eq, brace_run_emit, brace_run_state. reflexivity.
Qed.

Lemma counter_after_nonneg (lines : list str) (k : nat) :
  (0 <= Spec.counter_after lines k)%Z.
Proof.
  destruct k as [|k]; simpl; [lia|].
  destruct (Z.ltb_spec (Spec.counter_after lines k
                        + Spec.brace_delta (nth k lines [])) 0); lia.
Qed.

(** C3. The brace check keeps a counter that starts at 0, adds each line's
    opening braces and subtracts its closing braces, and is reset to 0 after a
    line that makes it negative; it raises an unmatched-brace issue for
    exactly the lines [n] where the counter turns negative, in order, then one
    mismatched-braces issue if and only if the final counter is not 0.  After
    a reset a later stray brace is reported on its own. *)
Theorem C3_brace_check (lines : list str) :
  check_braces lines []
  = map UnmatchedClosingBrace
      (filter (Spec.negative_at lines) (seq 1 (List.length lines)))
    ++ (if (Spec.counter_after lines (List.length lines) =? 0)%Z
        then [] else [MismatchedBraces])
  /\ (forall n, In (UnmatchedClosingBrace n) (check_lines lines) <->
                1 <= n <= List.length lines
                /\ Spec.negative_at lines n = true)
  /\ count_occ Issue_eq_dec (check_lines lines) MismatchedBraces
     = (if (Spec.counter_after lines (List.length lines) =? 0)%Z
        then 0 else 1)
  /\ (forall k, Spec.counter_after lines (Datatypes.S k)
                = if Spec.negative_at lines (Datatypes.S k) then 0%Z
                  else (Spec.counter_after lines k
                        + Spec.brace_delta (nth k lines []))%Z)
  /\ Spec.counter_after lines 0 = 0%Z
  /\ check_lines Examples.two_strays
     = [MissingHeader; MissingNotation;
        UnmatchedClosingBrace 1; UnmatchedClosingBrace 3].
Proof.
  split; [apply check_braces_spec|]. split; [|split; [|split; [|split]]].
  - intros n. rewrite in_own. cbn [issue_check checks nth].
    rewrite check_braces_spec, in_app_iff. split.
    + intros [H|H].
      * apply in_map_iff in H. destruct H as (m & E & H). injection E as ->.
        apply filter_In in H. destruct H as [H Hneg]. apply in_seq in H.
        split; [lia | assumption].
      * destruct (_ =? _)%Z; [contradiction|].
        destruct H as [H|[]]. discriminate.
    + intros [Hn Hneg]. left. apply in_map. apply filter_In.
      split; [apply in_seq; lia | assumption].
  - rewrite count_occ_own. cbn [issue_check checks nth].
    rewrite check_braces_spec, count_occ_app.
    assert (H0 : count_occ Issue_eq_dec
                   (map UnmatchedClosingBrace
                      (filter (Spec.negative_at lines)
                         (seq 1 (List.length lines)))) MismatchedBraces = 0).
    { apply count_occ_not_In. intros H. apply in_map_iff in H.
      destruct H as (m & E & _). discriminate. }
    rewrite H0. now destruct (_ =? _)%Z.
  - intros k. unfold Spec.negative_at. simpl. now rewrite Nat.sub_0_r.
  - reflexivity.
  - vm_compute. reflexivity.
Qed.

End Braces.

(* ================================================================== *)
(** * The relationship-block flag (C7) *)

Section RelationshipBlock.

Lemma firstn_line (lines : list str) (i : nat) (l : str) :
  line_at lines i = Some l ->
  firstn i lines = firstn (i - 1) lines ++ [l].
Proof.
  intros Hl. destruct (line_at_split _ _ Hl) as (l1 & l2 & -> & Hlen & Hi).
  replace i with (List.length l1 + 1) by lia.
  replace (List.length l1 + 1 - 1) with (List.length l1) by lia.
  rewrite !firstn_app, firstn_all2 by lia.
  rewrite Nat.sub_diag, firstn_all, firstn_O, app_nil_r.
  now replace (List.length l1 + 1 - List.length l1) with 1 by lia.
Qed.

(** The state before line [i + 1] is the state before line [i] moved by
    line [i]. *)
Lemma state_before_next (S B : Type)
    (step : list B * S -> nat * str -> list B * S) (st : S)
    (lines : list str) (i : nat) (l : str) :
  line_at lines i = Some l ->
  state_before step st lines (Datatypes.S i)
  = next_of step (state_before step st lines i) (i, l).
Proof.
  intros Hl. unfold state_before. simpl. rewrite Nat.sub_0_r.
  rewrite (firstn_line _ _ Hl), enumerate_app, run_state_app. simpl.
  pose proof (line_at_bounds _ _ Hl) as Hb.
  rewrite length_firstn, Nat.min_l by lia.
  now replace (Datatypes.S (i - 1)) with i by lia.
Qed.

Lemma rel_enter_true (rb : bool) (l : str) :
  rel_enter rb l = true <->
  Spec.trimmed_starts (py "relationship ") l \/ rb = true.
Proof.
  unfold rel_enter. rewrite trimmed_starts_iff.
  destruct (startswith (strip l) (py "relationship ")); intuition discriminate.
Qed.

Lemma rel_leave_true (l : str) :
  rel_leave true l = true <-> ~ Spec.trimmed_ends (py "}") l.
Proof.
  unfold rel_leave. rewrite trimmed_ends_iff.
  destruct (endswith (strip l) (py "}")); intuition discriminate.
Qed.

(** The flag under which line [i] is tested is set exactly when line [i] is
    inside a relationship block in the specification's sense. *)
Lemma rel_flag_spec (lines : list str) (i : nat) (l : str) :
  line_at lines i = Some l ->
  (rel_enter (state_before card_step false lines i) l = true
   <-> Spec.in_rel_block lines i).
Proof.
  revert l. induction i as [|k IH]; intros l Hl; [discriminate|].
  rewrite rel_enter_true. destruct k as [|k].
  - (* the first line: the flag starts false *)
    unfold state_before. simpl. split.
    + intros [H|H]; [|discriminate]. exists 1, l.
      repeat split; try assumption; try lia.
    + intros (j & lj & Hj & Hlj & Hs & _). left.
      destruct j as [|[|j]]; [discriminate | | lia].
      rewrite Hl in Hlj. now injection Hlj as <-.
  - (* a later line: the flag was set at the line before and not cleared *)
    assert (Hprev : exists l', line_at lines (Datatypes.S k) = Some l').
    { pose proof (line_at_bounds _ _ Hl) as Hb. simpl.
      destruct (nth_error lines k) eqn:E; [eauto|].
      apply nth_error_None in E. lia. }
    destruct Hprev as [l' Hl'].
    rewrite (state_before_next card_step false _ _ Hl'), card_next_eq.
    specialize (IH l' Hl'). split.
    + intros [H|H].
      * exists (Datatypes.S (Datatypes.S k)), l.
        repeat split; try assumption; try lia.
      * destruct (rel_enter _ l') eqn:E; [|discriminate].
        apply rel_leave_true in H.
        destruct (proj1 IH eq_refl) as (j & lj & Hj & Hlj & Hs & Hopen).
        exists j, lj. repeat split; try assumption; try lia.
        intros m lm Hm Hlm.
        destruct (Nat.eq_dec m (Datatypes.S k)) as [->|Hne].
        -- rewrite Hl' in Hlm. now injection Hlm as <-.
        -- apply (Hopen m lm); [lia | assumption].
    + intros (j & lj & Hj & Hlj & Hs & Hopen).
      destruct (Nat.eq_dec j (Datatypes.S (Datatypes.S k))) as [->|Hne].
      * left. rewrite Hl in Hlj. now injection Hlj as <-.
      * right.
        assert (Hin : Spec.in_rel_block lines (Datatypes.S k)).
        { exists j, lj. repeat split; try assumption; try lia.
          intros m lm Hm. apply Hopen. lia. }
        apply IH in Hin. rewrite Hin. apply rel_leave_true.
        apply (Hopen (Datatypes.S k) l'); [lia | assumption].
Qed.

Lemma rel_block_at_spec (lines : list str) (i : nat) :
  rel_block_at lines i = true <->
  (exists l, line_at lines i = Some l) /\ Spec.in_rel_block lines i.
Proof.
  rewrite rel_block_at_eq. destruct (line_at lines i) as [l|] eqn:Hl.
  - rewrite (rel_flag_spec _ _ Hl). split; [eauto | tauto].
  - split; [discriminate | intros [[l H] _]; discriminate].
Qed.

(** C7. The flag starts false; a line that (trimmed) starts with
    [relationship ] sets it before that line is tested; a line tested with the
    flag set clears it if it (trimmed) ends with a closing brace, whatever the
    brace depth.  So line [i] is tested exactly when some line [j <= i] opens a
    relationship and no line from [j] to [i - 1] ends with a closing brace, and
    only tested lines can raise a cardinality issue; a nested block that closes
    inside a relationship ends the testing early. *)
Theorem C7_relationship_flag (lines : list str) (i : nat) (l : str) :
  line_at lines i = Some l ->
  (rel_block_at lines i = true <-> Spec.in_rel_block lines i)
  /\ (forall s, In (UnrecognizedCardinality i s) (check_lines lines) ->
                Spec.in_rel_block lines i)
  /\ (forall acc rb,
        snd (card_step (acc, rb) (i, l))
        = (startswith (strip l) (py "relationship ") || rb)
          && negb (endswith (strip l) (py "}")))
  /\ snd (fold_left card_step (enumerate (@nil str) 1) ([], false)) = false
  /\ rel_block_at Examples.nested 3 = false
  /\ rel_block_at Examples.not_nested 2 = true
  /\ check_cardinalities Examples.nested [] = []
  /\ check_cardinalities Examples.not_nested []
     = [UnrecognizedCardinality 2 (py "A -> B [maybe]")].
Proof.
  intros Hl. split; [|split; [|split]].
  - rewrite rel_block_at_spec. split; [tauto | eauto].
  - intros s H. rewrite in_own in H. cbn [issue_check checks nth] in H.
    rewrite check_cardinalities_eq in H. cbn [app] in H.
    apply in_card_emit in H.
    destruct H as (i' & l' & t & Hl' & E & Hrb & _). injection E as <- _.
    now apply rel_block_at_spec in Hrb.
  - intros acc rb. unfold card_step, rel_enter, rel_leave.
    destruct (startswith (strip l) (py "relationship ")); destruct rb;
      destruct (endswith (strip l) (py "}")); reflexivity.
  - repeat split; vm_compute; reflexivity.
Qed.

Lemma C7_relationship_flag_witness :
  (rel_block_at Examples.not_nested 2 = true
   <-> Spec.in_rel_block Examples.not_nested 2)
  /\ (forall s, In (UnrecognizedCardinality 2 s)
                  (check_lines Examples.not_nested) ->
                Spec.in_rel_block Examples.not_nested 2)
  /\ (forall acc rb,
        snd (card_step (acc, rb) (2, py "  A -> B [maybe]"))
        = (startswith (strip (py "  A -> B [maybe]")) (py "relationship ") || rb)
          && negb (endswith (strip (py "  A -> B [maybe]")) (py "}")))
  /\ snd (fold_left card_step (enumerate (@nil str) 1) ([], false)) = false
  /\ rel_block_at Examples.nested 3 = false
  /\ rel_block_at Examples.not_nested 2 = true
  /\ check_cardinalities Examples.nested [] = []
  /\ check_cardinalities Examples.not_nested []
     = [UnrecognizedCardinality 2 (py "A -> B [maybe]")].
Proof.
  apply (@C7_relationship_flag Examples.not_nested 2 (py "  A -> B [maybe]")).
  reflexivity.
Defined.

End RelationshipBlock.

(* ================================================================== *)
(** * Declarations (C6) *)

Section DeclarationCheck.

Lemma in_check_decls (lines : list str) (x : Issue) :
  In x (check_lines lines) -> issue_check x = 3 ->
  exists i l, line_at lines i = Some l /\ In x (decl_step [] (i, l)).
Proof.
  intros H Hk. rewrite in_own, Hk in H. cbn [checks nth] in H.
  rewrite check_decls_eq in H. cbn [app] in H.
  now apply in_flat_map_lines in H.
Qed.

Lemma check_decls_in (lines : list str) (x : Issue) (i : nat) (l : str) :
  line_at lines i = Some l -> In x (decl_step [] (i, l)) ->
  In x (check_lines lines).
Proof.
  intros Hl H. rewrite check_lines_eq, !in_app_iff. do 3 right. left.
  apply in_flat_map_lines. eauto.
Qed.

Lemma orb_starts (l : str) :
  startswith (strip l) (py "entity ")
  || startswith (strip l) (py "weak entity ") = true <->
  Spec.trimmed_starts (py "entity ") l
  \/ Spec.trimmed_starts (py "weak entity ") l.
Proof. now rewrite orb_true_iff, !trimmed_starts_iff. Qed.

(** C6. For a line [n] that (trimmed) starts with [entity ] or
    [weak entity ], the invalid-entity issue for line [n] with the trimmed
    text is raised if and only if the trimmed line is not: optional [weak ],
    [entity], one or more whitespace characters, an identifier.  For a line
    that (trimmed) starts with [relationship ], the invalid-relationship issue
    is raised if and only if the trimmed line is not: [relationship], one or
    more whitespace characters, an identifier.  [entity 2Bad { ... }] raises
    the entity issue for its line. *)
Theorem C6_declaration_check (lines : list str) (n : nat) (l : str) :
  line_at lines n = Some l ->
  (Spec.trimmed_starts (py "entity ") l
   \/ Spec.trimmed_starts (py "weak entity ") l ->
   (In (InvalidEntity n (strip l)) (check_lines lines)
    <-> ~ Spec.entity_declaration (strip l)))
  /\ (Spec.trimmed_starts (py "relationship ") l ->
      (In (InvalidRelationship n (strip l)) (check_lines lines)
       <-> ~ Spec.relationship_declaration (strip l)))
  /\ In (InvalidEntity 1 (py "entity 2Bad { ... }"))
       (check_lines Examples.bad_entity).
Proof.
  intros Hl. split; [|split].
  - intros Hs. apply orb_starts in Hs. split.
    + intros H. apply in_check_decls in H; [|reflexivity].
      destruct H as (i & l' & Hl' & H). apply in_decl_step in H.
      destruct H as [(E & _ & Hm)|(E & _)]; [|discriminate].
      injection E as <- E. rewrite E, <- entity_match_iff. congruence.
    + intros H. apply check_decls_in with (i := n) (l := l); [assumption|].
      apply in_decl_step. left.
      repeat split; [assumption|].
      rewrite <- entity_match_iff in H.
      now destruct (re_match ENTITY_DECL (strip l)
                    || re_match WEAK_ENTITY_DECL (strip l)).
  - intros Hs. apply trimmed_starts_iff in Hs. split.
    + intros H. apply in_check_decls in H; [|reflexivity].
      destruct H as (i & l' & Hl' & H). apply in_decl_step in H.
      destruct H as [(E & _)|(E & _ & Hm)]; [discriminate|].
      injection E as <- E. rewrite E, <- relationship_match_iff. congruence.
    + intros H. apply check_decls_in with (i := n) (l := l); [assumption|].
      apply in_decl_step. right.
      repeat split; [assumption|].
      rewrite <- relationship_match_iff in H.
      now destruct (re_match REL_DECL (strip l)).
  - vm_compute. tauto.
Qed.

Lemma C6_declaration_check_witness :
  (Spec.trimmed_starts (py "entity ") (py "entity 2Bad { ... }")
   \/ Spec.trimmed_starts (py "weak entity ") (py "entity 2Bad { ... }") ->
   (In (InvalidEntity 1 (strip (py "entity 2Bad { ... }")))
      (check_lines Examples.bad_entity)
    <-> ~ Spec.entity_declaration (strip (py "entity 2Bad { ... }"))))
  /\ (Spec.trimmed_starts (py "relationship ") (py "entity 2Bad { ... }") ->
      (In (InvalidRelationship 1 (strip (py "entity 2Bad { ... }")))
         (check_lines Examples.bad_entity)
       <-> ~ Spec.relationship_declaration (strip (py "entity 2Bad { ... }"))))
  /\ In (InvalidEntity 1 (py "entity 2Bad { ... }"))
       (check_lines Examples.bad_entity).
Proof.
  apply (@C6_declaration_check Examples.bad_entity 1 (py "entity 2Bad { ... }")).
  reflexivity.
Defined.

End DeclarationCheck.

(* ================================================================== *)
(** * Recognized cardinalities are never reported *)

Section Cardinalities.

Lemma re_fullmatch_spec (r : re) (s : str) :
  re_fullmatch r s = true <-> lang r s.
Proof.
  unfold re_fullmatch. revert r. induction s as [|c s IH]; intros r; simpl.
  - apply nullable_lang.
  - rewrite IH. apply deriv_lang.
Qed.

(** Whatever pattern [A] stands for the alternatives, if it accepts the six
    tokens then a segment with a recognized cardinality is found by the closed
    pattern or, having a bar, by the role pattern. *)
Lemma recognized_found (A : re) (t : str) :
  (forall tok, In tok Spec.cardinality_tokens -> lang A tok) ->
  Spec.recognized_cardinality t ->
  re_search (Cat (Lit (ch "[")) (Cat A (Lit (ch "]")))) t = true
  \/ (contains t (py "|") = true
      /\ re_search
           (Cat (Lit (ch "["))
              (Cat A (Cat (Star (Class isspace)) (Lit (ch "|"))))) t = true).
Proof.
  intros HA (tok & pre & post & Htok & [-> | (sp & role & Hsp & ->)]).
  - left. apply re_search_spec.
    exists pre, (py "[" ++ tok ++ py "]"), post. split.
    + now rewrite <- !app_assoc.
    + change (py "[") with [ch "["]. change (py "]") with [ch "]"].
      constructor; [constructor|]. constructor; [now apply HA | constructor].
  - right. split.
    + apply contains_factor.
      exists (pre ++ py "[" ++ tok ++ sp), (role ++ py "]" ++ post).
      now rewrite <- !app_assoc.
    + apply re_search_spec.
      exists pre, (py "[" ++ tok ++ sp ++ py "|"), (role ++ py "]" ++ post).
      split.
      * now rewrite <- !app_assoc.
      * change (py "[") with [ch "["]. change (py "|") with [ch "|"].
        constructor; [constructor|]. constructor; [now apply HA|].
        constructor; [now apply lang_star_class | constructor].
Qed.

Lemma card_alternatives_tokens (tok : str) :
  In tok Spec.cardinality_tokens -> lang card_alternatives tok.
Proof.
  intros H. apply re_fullmatch_spec.
  repeat (destruct H as [<-|H]; [vm_compute; reflexivity|]).
  contradiction.
Qed.

Lemma tokens_re_tokens (tok : str) :
  In tok Spec.cardinality_tokens -> lang Spec.tokens_re tok.
Proof.
  intros H. apply re_fullmatch_spec.
  repeat (destruct H as [<-|H]; [vm_compute; reflexivity|]).
  contradiction.
Qed.

(** A segment with a recognized cardinality raises no issue. *)
Lemma recognized_not_reported (i : nat) (l t : str) :
  Spec.recognized_cardinality t -> card_token_step i l [] t = [].
Proof.
  intros H. unfold card_token_step.
  destruct (recognized_found (t := t) card_alternatives_tokens H) as [E|[Eb E]].
  - fold card_closed in E. rewrite E. simpl. now destruct (_ && _).
  - fold card_role in E. rewrite Eb, E. simpl.
    destruct (_ && _); [|reflexivity]. now destruct (negb _).
Qed.

Lemma recognized_recognizedb (t : str) :
  Spec.recognized_cardinality t -> Spec.recognizedb t = true.
Proof.
  intros H. unfold Spec.recognizedb.
  destruct (recognized_found (t := t) tokens_re_tokens H) as [E|[Eb E]].
  - now rewrite E.
  - rewrite Eb, E. apply orb_true_r.
Qed.

(** C2, at the document [Examples.loose_dot]: line 4 is inside the
    relationship block and has an arrow; its segment [ B [0.xN]] has both
    brackets and holds none of the recognized cardinalities; and no issue is
    raised for it, because the inline pattern [0\..N] takes any character for
    its second dot.  In the scenario of the specification only [[maybe]] is
    reported, as specified. *)
Theorem C2_loose_dot_not_reported :
  rel_block_at Examples.loose_dot 4 = true
  /\ contains (py "  A -> B [0.xN]") (py "->") = true
  /\ In (py " B [0.xN]") (split (py "  A -> B [0.xN]") (py "->"))
  /\ contains (py " B [0.xN]") (py "[") = true
  /\ contains (py " B [0.xN]") (py "]") = true
  /\ ~ Spec.recognized_cardinality (py " B [0.xN]")
  /\ re_search card_closed (py " B [0.xN]") = true
  /\ check_lines Examples.loose_dot = []
  /\ check_lines Examples.cards
     = [UnrecognizedCardinality 6 (py "A -> B [maybe]")].
Proof.
  repeat split; try (vm_compute; reflexivity).
  - vm_compute. tauto.
  - intros H. apply recognized_recognizedb in H. vm_compute in H. discriminate.
Qed.

End Cardinalities.

(* ================================================================== *)
(** * Conforming documents pass (C1) *)

Section Conforming.

Lemma no_In_nil (A : Type) (l : list A) : (forall x, ~ In x l) -> l = [].
Proof.
  destruct l as [|a l]; [reflexivity|]. intros H. exfalso. apply (H a). now left.
Qed.

Lemma line_at_In (lines : list str) (i : nat) (l : str) :
  line_at lines i = Some l -> In l lines.
Proof.
  destruct i as [|k]; simpl; [discriminate|]. apply nth_error_In.
Qed.

Lemma brace_sum_app (a b : list str) :
  Spec.brace_sum (a ++ b) = (Spec.brace_sum a + Spec.brace_sum b)%Z.
Proof. induction a as [|x a IH]; simpl; [reflexivity | rewrite IH; lia]. Qed.

Lemma brace_sum_firstn_S (lines : list str) (n : nat) :
  n < List.length lines ->
  Spec.brace_sum (firstn (Datatypes.S n) lines)
  = (Spec.brace_sum (firstn n lines) + Spec.brace_delta (nth n lines []))%Z.
Proof.
  intros Hn.
  assert (Hl : line_at lines (Datatypes.S n) = Some (nth n lines []))
    by (simpl; now apply nth_error_nth').
  rewrite (firstn_line _ _ Hl), brace_sum_app. simpl.
  rewrite Nat.sub_0_r. lia.
Qed.

(** While no prefix of the document has more closing than opening braces,
    the counter of the brace check is the plain sum. *)
Lemma counter_is_sum (lines : list str) (n : nat) :
  (forall k, k <= List.length lines ->
             (0 <= Spec.brace_sum (firstn k lines))%Z) ->
  n <= List.length lines ->
  Spec.counter_after lines n = Spec.brace_sum (firstn n lines).
Proof.
  intros Hpos. induction n as [|n IH]; intros Hn; [reflexivity|].
  cbn [Spec.counter_after]. rewrite IH by lia.
  rewrite <- brace_sum_firstn_S by lia.
  specialize (Hpos (Datatypes.S n) Hn).
  destruct (Z.ltb_spec (Spec.brace_sum (firstn (Datatypes.S n) lines)) 0);
    [lia | reflexivity].
Qed.

Lemma conforming_braces (lines : list str) :
  Spec.conforming lines -> check_braces lines [] = [].
Proof.
  intros C. rewrite check_braces_spec.
  pose proof (Spec.conf_braces_nonneg C) as Hpos.
  rewrite (counter_is_sum lines Hpos (Nat.le_refl _)), firstn_all.
  rewrite (Spec.conf_braces_closed C). simpl. rewrite app_nil_r.
  replace (filter _ _) with (@nil nat); [reflexivity|].
  symmetry. apply no_In_nil. intros n Hn. apply filter_In in Hn.
  destruct Hn as [Hn Hneg]. apply in_seq in Hn.
  unfold Spec.negative_at in Hneg.
  rewrite (counter_is_sum lines Hpos) in Hneg by lia.
  rewrite <- brace_sum_firstn_S in Hneg by lia.
  replace (Datatypes.S (n - 1)) with n in Hneg by lia.
  apply Z.ltb_lt in Hneg. specialize (Hpos n). lia.
Qed.

(** A conforming document yields no issue. *)
Lemma conforming_no_issue (lines : list str) :
  Spec.conforming lines -> check_lines lines = [].
Proof.
  intros C. rewrite check_lines_eq, (conforming_braces C).
  assert (Hh : check_header lines [] = []).
  { apply check_header_present.
    destruct (Spec.conf_header C) as (l0 & rest & -> & Hs).
    intros [H | (l & r & E & Hn)]; [discriminate|].
    injection E as <- <-. contradiction. }
  assert (Hn : check_notation lines [] = []).
  { destruct (Spec.conf_notation C) as (i & l & Hi & Hl & Hs).
    unfold check_notation.
    assert (E : existsb (fun line => startswith (strip line) (py "notation="))
                  (firstn 10 lines) = true).
    { apply existsb_exists. exists l.
      split; [now apply (first_ten lines Hi) | now apply trimmed_starts_iff]. }
    now rewrite E. }
  assert (Hd : flat_map (decl_step []) (enumerate lines 1) = []).
  { apply no_In_nil. intros x H. apply in_flat_map_lines in H.
    destruct H as (i & l & Hl & H). apply line_at_In in Hl.
    apply in_decl_step in H. destruct H as [(_ & Hs & Hm)|(_ & Hs & Hm)].
    - assert (Hok : Spec.entity_declaration (strip l)).
      { apply orb_true_iff in Hs. destruct Hs as [Hs|Hs];
          apply trimmed_starts_iff in Hs.
        - exists []. split; [now left|]. now apply (Spec.conf_entity C).
        - exists (py "weak "). split; [now right|].
          now apply (Spec.conf_weak_entity C). }
      apply entity_match_iff in Hok. congruence.
    - apply trimmed_starts_iff in Hs.
      apply (Spec.conf_relationship C) in Hs; [|assumption].
      apply relationship_match_iff in Hs. congruence. }
  assert (Hc : run_emit card_step false (enumerate lines 1) = []).
  { apply no_In_nil. intros x H. apply in_card_emit in H.
    destruct H as (i & l & t & Hl & _ & Hrb & Harrow & Ht & Ho & Hcl & H1 & H2).
    assert (Hrec : Spec.recognized_cardinality t).
    { apply (Spec.conf_cardinality C) with (i := i) (l := l); try assumption.
      - apply rel_block_at_spec in Hrb. tauto.
      - now apply contains_factor in Harrow.
      - now apply (contains_char t (ch "[")).
      - now apply (contains_char t (ch "]")). }
    destruct (recognized_found (t := t) card_alternatives_tokens Hrec)
      as [E|[Eb E]].
    - fold card_closed in E. congruence.
    - fold card_role in E. rewrite Eb, E in H2. discriminate. }
  assert (Hq : flat_map (quote_step []) (enumerate lines 1) = []).
  { apply no_In_nil. intros x H. apply in_flat_map_lines in H.
    destruct H as (i & l & Hl & H). apply line_at_In in Hl.
    apply in_quote_step in H. destruct H as [_ H].
    apply contains_char in H. now apply (Spec.conf_no_quote C) in H. }
  now rewrite Hh, Hn, Hd, Hc, Hq.
Qed.

(** C1. For a document with an [erdiagram] first line, a [notation=] line
    among the first ten, a brace counter that is never negative and ends at 0,
    well-formed [entity], [weak entity] and [relationship] declarations,
    recognized cardinalities in every bracketed segment of the arrow lines
    inside relationship blocks, and no double quote: [check_file] returns no
    issue, and the program, run on a file holding it, prints the pass message
    and exits with status 0. *)
Theorem C1_conforming_passes (w : World) (prog path text : str) :
  Spec.conforming (splitlines text) ->
  path_exists w path = true ->
  path_read_text w path = Some text ->
  check_lines (splitlines text) = []
  /\ check_file w path = Some []
  /\ main w [prog; path] = Exit [pass_message] 0.
Proof.
  intros C He Hr. pose proof (conforming_no_issue C) as H0.
  assert (Hf : check_file w path = Some [])
    by (unfold check_file; now rewrite Hr, H0).
  repeat split; try assumption.
  unfold main. cbn [List.length Nat.eqb negb nth]. now rewrite He, Hf.
Qed.

Lemma shop_conforming : Spec.conforming (splitlines Examples.shop_text).
Proof.
  change (splitlines Examples.shop_text) with Examples.shop.
  constructor.
  - eexists _, _. split; [reflexivity|]. exists (py " Shop"). reflexivity.
  - exists 2, (py "notation=crowsfoot"). repeat split; try lia.
    exists (py "crowsfoot"). reflexivity.
  - intros k Hk. simpl in Hk.
    do 6 (destruct k as [|k]; [vm_compute; discriminate|]). lia.
  - reflexivity.
  - intros l Hl Hs. apply trimmed_starts_iff in Hs.
    repeat (destruct Hl as [<-|Hl]; [try (vm_compute in Hs; discriminate)|]);
      [|contradiction].
    apply re_match_declaration. vm_compute. reflexivity.
  - intros l Hl Hs. apply trimmed_starts_iff in Hs.
    repeat (destruct Hl as [<-|Hl]; [vm_compute in Hs; discriminate|]).
    contradiction.
  - intros l Hl Hs. apply trimmed_starts_iff in Hs.
    repeat (destruct Hl as [<-|Hl]; [vm_compute in Hs; discriminate|]).
    contradiction.
  - intros i l t Hl _ Harrow. apply contains_factor in Harrow.
    apply line_at_In in Hl.
    repeat (destruct Hl as [<-|Hl]; [vm_compute in Harrow; discriminate|]).
    contradiction.
  - intros l Hl Hq. apply (contains_char l dquote) in Hq.
    repeat (destruct Hl as [<-|Hl]; [vm_compute in Hq; discriminate|]).
    contradiction.
Qed.

Lemma C1_conforming_passes_witness :
  check_lines (splitlines Examples.shop_text) = []
  /\ check_file (Examples.one_file (py "shop.erd") Examples.shop_text)
       (py "shop.erd") = Some []
  /\ main (Examples.one_file (py "shop.erd") Examples.shop_text)
       [py "biger_validator.py"; py "shop.erd"]
     = Exit [pass_message] 0.
Proof.
  apply (@C1_conforming_passes
           (Examples.one_file (py "shop.erd") Examples.shop_text)
           (py "biger_validator.py") (py "shop.erd") Examples.shop_text).
  - exact shop_conforming.
  - reflexivity.
  - reflexivity.
Defined.

End Conforming.

(* ================================================================== *)
(** * The entry point (C4) and determinism (C8) *)

Section EntryPoint.

Lemma main_two_args (w : World) (prog p : str) :
  main w [prog; p]
  = if negb (path_exists w p)
    then Exit [py "File not found: " ++ path_str w p] 2
    else match check_file w p with
         | None => Uncaught []
         | Some issues =>
             match issues with
             | [] => Exit [pass_message] 0
             | _ :: _ =>
                 Exit (py "Found issues:"
                         :: map (fun x => py "- " ++ x) issues) 1
             end
         end.
Proof. reflexivity. Qed.





End EntryPoint.

(* ================================================================== *)
(** * Trimming *)

Section Trimming.

Lemma lstrip_blank (s : str) : Behaviour.blank s -> lstrip s = [].
Proof.
  induction 1 as [|c s Hc _ IH]; simpl; [reflexivity | now rewrite Hc].
Qed.

Lemma lstrip_nil_blank (s : str) : lstrip s = [] -> Behaviour.blank s.
Proof.
  induction s as [|c s IH]; simpl; [constructor|].
  destruct (isspace c) eqn:Hc; [|discriminate].
  intros H. constructor; [assumption | now apply IH].
Qed.

Lemma lstrip_app_blank (a s : str) :
  Behaviour.blank a -> lstrip (a ++ s) = lstrip s.
Proof.
  induction 1 as [|c a Hc _ IH]; simpl; [reflexivity | now rewrite Hc].
Qed.

Lemma lstrip_app (s b : str) : lstrip s <> [] -> lstrip (s ++ b) = lstrip s ++ b.
Proof.
  induction s as [|c s IH]; simpl; [congruence|].
  destruct (isspace c); auto.
Qed.

(** [lstrip] cuts a run of whitespace and stops at the first other
    character. *)
Lemma lstrip_split (s : str) :
  exists a, s = a ++ lstrip s /\ Behaviour.blank a
            /\ forall c t, lstrip s = c :: t -> isspace c = false.
Proof.
  induction s as [|c s (a & E & Ha & Hh)]; simpl.
  - exists []. repeat split; [constructor | discriminate].
  - destruct (isspace c) eqn:Hc.
    + exists (c :: a). repeat split.
      * simpl. now rewrite <- E.
      * now constructor.
      * exact Hh.
    + exists []. repeat split; [constructor|].
      intros c' t E'. now injection E' as <- _.
Qed.

Lemma lstrip_head (c : char) (t : str) :
  isspace c = false -> lstrip (c :: t) = c :: t.
Proof. intros H. simpl. now rewrite H. Qed.

Lemma blank_rev (s : str) : Behaviour.blank s -> Behaviour.blank (rev s).
Proof. apply Forall_rev. Qed.

Lemma rstrip_app_blank (s b : str) :
  Behaviour.blank b -> rstrip (s ++ b) = rstrip s.
Proof.
  intros Hb. unfold rstrip.
  now rewrite rev_app_distr, lstrip_app_blank by now apply blank_rev.
Qed.

Lemma rstrip_split (s : str) :
  exists b, s = rstrip s ++ b /\ Behaviour.blank b
            /\ forall c t, rstrip s = t ++ [c] -> isspace c = false.
Proof.
  destruct (lstrip_split (rev s)) as (a & E & Ha & Hh).
  exists (rev a). unfold rstrip. repeat split.
  - rewrite <- rev_app_distr, <- E. symmetry. apply rev_involutive.
  - now apply blank_rev.
  - intros c t Ht. apply (Hh c (rev t)).
    rewrite <- (rev_involutive (lstrip (rev s))), Ht, rev_app_distr.
    reflexivity.
Qed.

(** Trailing whitespace is cut without touching the first character. *)
Lemma rstrip_keeps_head (c : char) (t : str) :
  isspace c = false -> exists t', rstrip (c :: t) = c :: t'.
Proof.
  intros Hc. unfold rstrip. simpl.
  destruct (lstrip (rev t)) as [|d u] eqn:E.
  - exists []. apply lstrip_nil_blank in E.
    rewrite lstrip_app_blank by assumption. simpl. now rewrite Hc.
  - rewrite lstrip_app by congruence. rewrite E, rev_app_distr.
    simpl. eauto.
Qed.

Lemma strip_blank (s : str) : Behaviour.blank s -> strip s = [].
Proof. intros H. unfold strip. now rewrite (@lstrip_blank s H). Qed.

Lemma strip_head (s : str) (c : char) (t : str) :
  strip s = c :: t -> isspace c = false.
Proof.
  unfold strip. destruct (lstrip_split s) as (a & _ & _ & Hh).
  destruct (lstrip s) as [|d u] eqn:E; [discriminate|].
  pose proof (Hh d u eq_refl) as Hd.
  destruct (@rstrip_keeps_head d u Hd) as [t' Ht']. rewrite Ht'.
  intros H. now injection H as <- _.
Qed.

Lemma strip_last (s : str) (c : char) (t : str) :
  strip s = t ++ [c] -> isspace c = false.
Proof.
  unfold strip. destruct (rstrip_split (lstrip s)) as (b & _ & _ & Hl).
  apply Hl.
Qed.

Lemma strip_parts (s : str) :
  exists a b, s = a ++ strip s ++ b /\ Behaviour.blank a /\ Behaviour.blank b.
Proof.
  destruct (lstrip_split s) as (a & Ea & Ha & _).
  destruct (rstrip_split (lstrip s)) as (b & Eb & Hb & _).
  exists a, b. unfold strip. rewrite <- Eb. auto.
Qed.

Lemma strip_pad (a s b : str) :
  Behaviour.blank a -> Behaviour.blank b -> strip (a ++ s ++ b) = strip s.
Proof.
  intros Ha Hb. unfold strip. rewrite lstrip_app_blank by assumption.
  destruct (lstrip s) as [|c u] eqn:E.
  - apply lstrip_nil_blank in E.
    rewrite lstrip_blank; [reflexivity|]. apply Forall_app. auto.
  - rewrite lstrip_app by congruence. rewrite E. now apply rstrip_app_blank.
Qed.

Lemma strip_idempotent (s : str) : strip (strip s) = strip s.
Proof.
  destruct (strip s) as [|c t] eqn:E; [reflexivity|].
  pose proof (@strip_head s c t E) as Hc.
  unfold strip at 1. rewrite (@lstrip_head c t Hc).
  destruct (rstrip_split (c :: t)) as (b & Eb & Hb & _).
  destruct b as [|d b]; [now rewrite app_nil_r in Eb|].
  exfalso. inversion Hb as [|? ? Hd _]; subst.
  assert (Hlast : exists u x, c :: t = u ++ [x] /\ isspace x = true).
  { rewrite Eb. destruct (exists_last (l := d :: b)) as (u & x & Eu);
      [discriminate|].
    rewrite Eu in *. exists (rstrip (c :: t) ++ u), x.
    split; [now rewrite app_assoc|].
    apply Forall_app in Hb. destruct Hb as [_ Hx]. now inversion Hx. }
  destruct Hlast as (u & x & Eu & Hx).
  rewrite Eu in E. apply strip_last in E. congruence.
Qed.

End Trimming.

(* ================================================================== *)
(** * Lines of a text *)

Section Lines.

Local Open Scope N_scope.

Lemma splitlines_from_one_line (n : nat) (s cur : str) :
  (List.length s <= n)%nat -> Behaviour.one_line cur ->
  Forall Behaviour.one_line (splitlines_from cur s).
Proof.
  revert s cur. induction n as [|n IH]; intros s cur Hn Hcur.
  - destruct s; [|simpl in Hn; lia]. simpl.
    destruct cur; constructor; [now apply Forall_rev | constructor].
  - destruct s as [|c s]; simpl.
    + destruct cur; constructor; [now apply Forall_rev | constructor].
    + simpl in Hn. destruct (is_linebreak c) eqn:Hc.
      * constructor; [now apply Forall_rev|].
        destruct s as [|d s']; [apply IH; [simpl; lia | constructor]|].
        simpl in Hn.
        destruct ((c =? 13) && (d =? 10));
          apply IH; try constructor; simpl; lia.
      * apply IH; [lia | now constructor].
Qed.

Lemma splitlines_from_lf (l rest cur : str) :
  Behaviour.one_line l ->
  splitlines_from cur (l ++ 10 :: rest)
  = (rev cur ++ l) :: splitlines_from [] rest.
Proof.
  intros Hl. revert cur. induction Hl as [|c l Hc _ IH]; intros cur; simpl.
  - rewrite app_nil_r. now destruct rest.
  - rewrite Hc, IH. simpl. now rewrite <- app_assoc.
Qed.

Lemma splitlines_from_crlf (l rest cur : str) :
  Behaviour.one_line l ->
  splitlines_from cur (l ++ 13 :: 10 :: rest)
  = (rev cur ++ l) :: splitlines_from [] rest.
Proof.
  intros Hl. revert cur. induction Hl as [|c l Hc _ IH]; intros cur; simpl.
  - now rewrite app_nil_r.
  - rewrite Hc, IH. simpl. now rewrite <- app_assoc.
Qed.

Lemma splitlines_join (lines : list str) :
  Forall Behaviour.one_line lines ->
  splitlines (Behaviour.join_lines lines) = lines.
Proof.
  unfold splitlines, Behaviour.join_lines.
  induction 1 as [|l lines Hl _ IH]; [reflexivity|].
  cbn [map List.concat]. rewrite <- app_assoc. cbn [app].
  now rewrite (splitlines_from_lf _ _ Hl), IH.
Qed.

Lemma splitlines_join_crlf (lines : list str) :
  Forall Behaviour.one_line lines ->
  splitlines (Behaviour.join_lines_crlf lines) = lines.
Proof.
  unfold splitlines, Behaviour.join_lines_crlf.
  induction 1 as [|l lines Hl _ IH]; [reflexivity|].
  cbn [map List.concat]. rewrite <- app_assoc. cbn [app].
  now rewrite (splitlines_from_crlf _ _ Hl), IH.
Qed.

(** X1. The lines [check_file] works on hold no line boundary: in
    particular no line feed, so [.] in a pattern stands for any character of
    a line. *)
Theorem lines_hold_no_line_boundary (text : str) :
  Forall Behaviour.one_line (splitlines text)
  /\ forall l, In l (splitlines text) -> ~ In 10 l.
Proof.
  assert (H : Forall Behaviour.one_line (splitlines text))
    by (apply (@splitlines_from_one_line (List.length text)); [lia | constructor]).
  split; [exact H|]. intros l Hl Hin.
  rewrite Forall_forall in H. specialize (H l Hl).
  unfold Behaviour.one_line in H. rewrite Forall_forall in H.
  specialize (H 10 Hin). discriminate.
Qed.

(** X2. Every list of lines without line boundaries is the content of a text,
    written with LF or with CR LF line ends alike: [splitlines] gives the
    lines back, and [check_file] returns the same issues for both texts. *)
Theorem lines_of_joined_text (lines : list str) (w : World) (p q : str) :
  Forall Behaviour.one_line lines ->
  path_read_text w p = Some (Behaviour.join_lines lines) ->
  path_read_text w q = Some (Behaviour.join_lines_crlf lines) ->
  splitlines (Behaviour.join_lines lines) = lines
  /\ splitlines (Behaviour.join_lines_crlf lines) = lines
  /\ check_file w p = Some (map issue_text (check_lines lines))
  /\ check_file w q = check_file w p.
Proof.
  intros H Hp Hq. pose proof (splitlines_join H) as E1.
  pose proof (splitlines_join_crlf H) as E2.
  unfold check_file. rewrite Hp, Hq, E1, E2. auto.
Qed.

Lemma lines_of_joined_text_witness :
  splitlines (Behaviour.join_lines Examples.shop) = Examples.shop
  /\ splitlines (Behaviour.join_lines_crlf Examples.shop) = Examples.shop
  /\ check_file Cases.shop_twice (py "lf.erd")
     = Some (map issue_text (check_lines Examples.shop))
  /\ check_file Cases.shop_twice (py "crlf.erd")
     = check_file Cases.shop_twice (py "lf.erd").
Proof.
  apply (@lines_of_joined_text Examples.shop Cases.shop_twice
           (py "lf.erd") (py "crlf.erd")).
  - repeat constructor.
  - reflexivity.
  - reflexivity.
Defined.

End Lines.

(* ================================================================== *)
(** * How often an issue is raised *)

Section Counting.

Variables (S : Type) (step : list Issue * S -> nat * str -> list Issue * S).
Variable x : Issue.
Variable n : nat.

(** Iterations at other lines than [n] do not raise [x]. *)
Hypothesis only_at_n :
  forall st i l, i <> n -> ~ In x (emit_of step st (i, l)).

Lemma count_run_emit_lines (st : S) (lines : list str) :
  count_occ Issue_eq_dec (run_emit step st (enumerate lines 1)) x
  = match line_at lines n with
    | Some l =>
        count_occ Issue_eq_dec
          (emit_of step (state_before step st lines n) (n, l)) x
    | None => 0
    end.
Proof.
  induction lines as [|a ls IH] using rev_ind.
  - simpl. now destruct n as [|[|k]].
  - rewrite enumerate_app, run_emit_app, count_occ_app, IH. simpl.
    rewrite app_nil_r.
    destruct (Nat.eq_dec n (Datatypes.S (List.length ls))) as [E|E].
    + rewrite E, line_at_app.
      assert (Hnone : line_at ls (Datatypes.S (List.length ls)) = None)
        by (simpl; apply nth_error_None; lia).
      rewrite Hnone. unfold state_before. simpl. rewrite Nat.sub_0_r.
      now rewrite firstn_app_le, firstn_all by lia.
    + rewrite (proj1 (count_occ_not_In Issue_eq_dec _ x));
        [|apply only_at_n; lia].
      rewrite Nat.add_0_r.
      destruct (line_at (ls ++ [a]) n) as [l|] eqn:Hl.
      * destruct (line_at_last _ _ _ Hl) as [[Hle Hl'] | [Hn _]]; [|lia].
        rewrite Hl'. now rewrite state_before_app_le by lia.
      * destruct (line_at ls n) as [l|] eqn:Hl'; [|reflexivity].
        pose proof (line_at_bounds _ _ Hl') as Hb.
        rewrite line_at_app_le in Hl by lia. congruence.
Qed.

End Counting.

Section CountingStateless.

(** A loop without state, as a loop over the state [tt]. *)
Lemma count_flat_map_lines (f : nat * str -> list Issue) (x : Issue) (n : nat)
    (lines : list str) :
  (forall i l, i <> n -> ~ In x (f (i, l))) ->
  count_occ Issue_eq_dec (flat_map f (enumerate lines 1)) x
  = match line_at lines n with
    | Some l => count_occ Issue_eq_dec (f (n, l)) x
    | None => 0
    end.
Proof.
  intros Hf. induction lines as [|a ls IH] using rev_ind.
  - simpl. now destruct n as [|[|k]].
  - rewrite enumerate_app, flat_map_app, count_occ_app, IH. simpl.
    rewrite app_nil_r.
    destruct (Nat.eq_dec n (Datatypes.S (List.length ls))) as [E|E].
    + rewrite E, line_at_app.
      assert (Hnone : line_at ls (Datatypes.S (List.length ls)) = None)
        by (simpl; apply nth_error_None; lia).
      now rewrite Hnone.
    + rewrite (proj1 (count_occ_not_In Issue_eq_dec _ x));
        [|apply Hf; lia].
      rewrite Nat.add_0_r.
      destruct (line_at (ls ++ [a]) n) as [l|] eqn:Hl.
      * destruct (line_at_last _ _ _ Hl) as [[Hle Hl'] | [Hn _]]; [|lia].
        now rewrite Hl'.
      * destruct (line_at ls n) as [l|] eqn:Hl'; [|reflexivity].
        pose proof (line_at_bounds _ _ Hl') as Hb.
        rewrite line_at_app_le in Hl by lia. congruence.
Qed.

End CountingStateless.

(* ================================================================== *)
(** * The quoting check and the notation check, exactly *)

Section QuoteNotation.

(** X3. A line with a double quote anywhere raises the quoting issue for its
    number exactly once, however many quotes it has; a line without one never
    does; and no quoting issue cites a line that does not exist. *)
Theorem quote_issue_once_per_quoted_line (lines : list str) (n : nat) :
  count_occ Issue_eq_dec (check_lines lines) (QuotedIdentifiers n)
  = match line_at lines n with
    | Some l => if in_dec N.eq_dec dquote l then 1 else 0
    | None => 0
    end.
Proof.
  rewrite count_occ_own. cbn [issue_check checks nth].
  rewrite check_quotes_eq. cbn [app].
  rewrite (@count_flat_map_lines _ _ n).
  - destruct (line_at lines n) as [l|]; [|reflexivity].
    unfold quote_step. destruct (in_dec N.eq_dec dquote l) as [H|H].
    + apply (contains_char l dquote) in H. rewrite H. cbn [app].
      now rewrite count_occ_cons_eq by reflexivity.
    + destruct (contains l [dquote]) eqn:E; [|reflexivity].
      apply (contains_char l dquote) in E. contradiction.
  - intros i l Hi H. apply in_quote_step in H. destruct H as [E _].
    injection E as E. congruence.
Qed.

Lemma notation_found (lines : list str) :
  existsb (fun line => startswith (strip line) (py "notation="))
    (firstn 10 lines) = true
  <-> exists i l, 1 <= i <= 10 /\ line_at lines i = Some l
                  /\ Spec.trimmed_starts (py "notation=") l.
Proof.
  rewrite existsb_exists. split.
  - intros (l & Hin & Hs). apply In_nth_error in Hin. destruct Hin as [k Hk].
    assert (Hlt : k < 10).
    { assert (k < List.length (firstn 10 lines))
        by (apply nth_error_Some; congruence).
      rewrite length_firstn in *. lia. }
    rewrite nth_error_firstn in Hk.
    destruct (Nat.ltb_spec k 10); [|lia].
    exists (Datatypes.S k), l. repeat split; try lia; try assumption.
    now apply trimmed_starts_iff.
  - intros (i & l & Hi & Hl & Hs). exists l.
    split; [now apply (first_ten lines Hi) | now apply trimmed_starts_iff].
Qed.

(** X4. The notation issue is raised exactly once if none of the first ten
    lines, trimmed, starts with [notation=], and not at all otherwise: a
    declaration on line 11 or later does not count, nor does one with blanks
    before the equals sign. *)
Theorem notation_issue_exactly (lines : list str) :
  ((exists i l, 1 <= i <= 10 /\ line_at lines i = Some l
                /\ Spec.trimmed_starts (py "notation=") l)
   <-> count_occ Issue_eq_dec (check_lines lines) MissingNotation = 0)
  /\ (~ (exists i l, 1 <= i <= 10 /\ line_at lines i = Some l
                     /\ Spec.trimmed_starts (py "notation=") l)
      <-> count_occ Issue_eq_dec (check_lines lines) MissingNotation = 1).
Proof.
  rewrite count_occ_own. cbn [issue_check checks nth]. unfold check_notation.
  rewrite <- notation_found.
  destruct (existsb _ _); simpl; split; split; intros H;
    try reflexivity; try discriminate; try congruence.
Qed.

End QuoteNotation.

(* ================================================================== *)
(** * The brace check and balanced documents *)

Section Balanced.

Lemma in_unmatched (lines : list str) (n : nat) :
  In (UnmatchedClosingBrace n) (check_lines lines) <->
  1 <= n <= List.length lines /\ Spec.negative_at lines n = true.
Proof.
  rewrite in_own. cbn [issue_check checks nth].
  rewrite check_braces_spec, in_app_iff. split.
  - intros [H|H].
    + apply in_map_iff in H. destruct H as (m & E & H). injection E as ->.
      apply filter_In in H. destruct H as [H Hneg]. apply in_seq in H.
      split; [lia | assumption].
    + destruct (_ =? _)%Z; [contradiction|].
      destruct H as [H|[]]. discriminate.
  - intros [Hn Hneg]. left. apply in_map. apply filter_In.
    split; [apply in_seq; lia | assumption].
Qed.

Lemma in_mismatched (lines : list str) :
  In MismatchedBraces (check_lines lines) <->
  Spec.counter_after lines (List.length lines) <> 0%Z.
Proof.
  rewrite in_own. cbn [issue_check checks nth].
  rewrite check_braces_spec, in_app_iff. split.
  - intros [H|H].
    + apply in_map_iff in H. destruct H as (m & E & _). discriminate.
    + destruct (Z.eqb_spec (Spec.counter_after lines (List.length lines)) 0);
        [contradiction | assumption].
  - intros H. right.
    destruct (Z.eqb_spec (Spec.counter_after lines (List.length lines)) 0);
      [contradiction | now left].
Qed.

Lemma never_negative_is_sum (lines : list str) (k : nat) :
  (forall n, 1 <= n <= List.length lines -> Spec.negative_at lines n = false) ->
  k <= List.length lines ->
  Spec.counter_after lines k = Spec.brace_sum (firstn k lines).
Proof.
  intros Hneg. induction k as [|k IH]; intros Hk; [reflexivity|].
  specialize (Hneg (Datatypes.S k)). unfold Spec.negative_at in Hneg.
  simpl in Hneg. rewrite Nat.sub_0_r in Hneg.
  cbn [Spec.counter_after]. rewrite Hneg by lia.
  rewrite IH by lia. symmetry. apply brace_sum_firstn_S. lia.
Qed.

Lemma balanced_never_negative (lines : list str) (n : nat) :
  Behaviour.balanced lines -> 1 <= n <= List.length lines ->
  Spec.negative_at lines n = false.
Proof.
  intros [Hpos _] Hn. unfold Spec.negative_at.
  rewrite (counter_is_sum lines Hpos) by lia.
  rewrite <- brace_sum_firstn_S by lia.
  replace (Datatypes.S (n - 1)) with n by lia.
  apply Z.ltb_ge. apply Hpos. lia.
Qed.

Lemma silent_iff_balanced (lines : list str) :
  (~ In MismatchedBraces (check_lines lines)
   /\ forall n, ~ In (UnmatchedClosingBrace n) (check_lines lines))
  <-> Behaviour.balanced lines.
Proof.
  rewrite in_mismatched. split.
  - intros [Hfin Hno].
    assert (Hneg : forall n, 1 <= n <= List.length lines ->
                             Spec.negative_at lines n = false).
    { intros n Hn. destruct (Spec.negative_at lines n) eqn:E; [|reflexivity].
      exfalso. apply (Hno n). apply in_unmatched. auto. }
    split.
    + intros k Hk. rewrite <- (never_negative_is_sum lines Hneg Hk).
      apply counter_after_nonneg.
    + rewrite <- (firstn_all lines) at 1.
      rewrite <- (never_negative_is_sum lines Hneg (Nat.le_refl _)).
      destruct (Z.eq_dec (Spec.counter_after lines (List.length lines)) 0);
        [assumption | contradiction].
  - intros B. split.
    + intros H. apply H. destruct B as [Hpos Hz].
      now rewrite (counter_is_sum lines Hpos (Nat.le_refl _)), firstn_all.
    + intros n H. apply in_unmatched in H. destruct H as [Hn Hneg].
      rewrite (balanced_never_negative B Hn) in Hneg. discriminate.
Qed.

(** X5. The brace check stays silent exactly on balanced documents: no brace
    issue is raised if and only if no prefix of the document has more closing
    than opening braces and the whole document has as many of each. *)
Theorem brace_check_silent_iff_balanced (lines : list str) :
  (~ In MismatchedBraces (check_lines lines)
   /\ forall n, ~ In (UnmatchedClosingBrace n) (check_lines lines))
  <-> Behaviour.balanced lines.
Proof. apply silent_iff_balanced. Qed.

Lemma counter_positive_opened (lines : list str) (m : nat) :
  Spec.counter_after lines m <> 0%Z ->
  exists k, k < m /\ (0 < Spec.brace_delta (nth k lines []))%Z.
Proof.
  induction m as [|m IH]; simpl; [congruence|]. intros H.
  destruct (Z.eq_dec (Spec.counter_after lines m) 0) as [E|E].
  - exists m. split; [lia|]. rewrite E in H.
    destruct (Z.ltb_spec (0 + Spec.brace_delta (nth m lines [])) 0); lia.
  - destruct (IH E) as (k & Hk & Hd). exists k. split; [lia | assumption].
Qed.

Lemma delta_negative_closing (l : str) :
  (Spec.brace_delta l < 0)%Z -> In (ch "}") l.
Proof.
  unfold Spec.brace_delta. intros H.
  apply (count_occ_In N.eq_dec). lia.
Qed.

Lemma delta_positive_opening (l : str) :
  (0 < Spec.brace_delta l)%Z -> In (ch "{") l.
Proof.
  unfold Spec.brace_delta. intros H.
  apply (count_occ_In N.eq_dec). lia.
Qed.

Lemma NoDup_map_unmatched (ns : list nat) :
  NoDup ns -> NoDup (map UnmatchedClosingBrace ns).
Proof.
  induction 1 as [|a ns Ha _ IH]; simpl; constructor; [|assumption].
  intros H. apply in_map_iff in H. destruct H as (b & E & Hb).
  injection E as ->. contradiction.
Qed.

Lemma check_braces_NoDup (lines : list str) : NoDup (check_braces lines []).
Proof.
  rewrite check_braces_spec.
  assert (Hm : NoDup (map UnmatchedClosingBrace
                        (filter (Spec.negative_at lines)
                           (seq 1 (List.length lines))))).
  { apply NoDup_map_unmatched, NoDup_filter, seq_NoDup. }
  destruct (_ =? _)%Z; [now rewrite app_nil_r|].
  apply NoDup_app; [assumption | repeat constructor; intros [] | ].
  intros x Hx [<-|[]]. apply in_map_iff in Hx.
  destruct Hx as (m & E & _). discriminate.
Qed.

(** X6. The brace check reports each thing once and only where a brace
    stands: an unmatched-brace issue cites a line that holds a closing brace,
    no line is cited twice, the counter it keeps is never negative, and the
    mismatched-braces issue means that some line holds an opening brace. *)
Theorem brace_issues_point_at_braces (lines : list str) :
  NoDup (check_braces lines [])
  /\ (forall n, In (UnmatchedClosingBrace n) (check_lines lines) ->
                exists l, line_at lines n = Some l /\ In (ch "}") l)
  /\ (In MismatchedBraces (check_lines lines) ->
      exists l, In l lines /\ In (ch "{") l)
  /\ (forall k, (0 <= run_state brace_step 0%Z
                        (enumerate (firstn k lines) 1))%Z).
Proof.
  split; [apply check_braces_NoDup|]. split; [|split].
  - intros n H. apply in_unmatched in H. destruct H as [Hn Hneg].
    exists (nth (n - 1) lines []). split.
    + destruct n as [|k]; [lia|]. simpl. rewrite Nat.sub_0_r.
      apply nth_error_nth'. lia.
    + apply delta_negative_closing. unfold Spec.negative_at in Hneg.
      apply Z.ltb_lt in Hneg.
      pose proof (counter_after_nonneg lines (n - 1)). lia.
  - intros H. apply in_mismatched in H.
    apply counter_positive_opened in H. destruct H as (k & Hk & Hd).
    exists (nth k lines []). split; [now apply nth_In|].
    now apply delta_positive_opening.
  - intros k. rewrite brace_run_state. apply counter_after_nonneg.
Qed.

End Balanced.

(* ================================================================== *)
(** * What the cardinality check lets through *)

Section Accepted.

Local Open Scope N_scope.

Lemma lang_dot_inv (w : str) : lang Dot w -> exists c, w = [c] /\ c <> 10.
Proof. intros H. inversion H; subst. eauto. Qed.

Lemma lang_range_loose (a b : char) (tok : str) :
  lang (range_loose a b) tok <->
  exists c, c <> 10 /\ tok = [a; ch "."; c; b].
Proof.
  unfold range_loose. split.
  - intros H.
    apply lang_cat_inv in H. destruct H as (u1 & r1 & -> & H1 & H).
    apply lang_cat_inv in H. destruct H as (u2 & r2 & -> & H2 & H).
    apply lang_cat_inv in H. destruct H as (u3 & u4 & -> & H3 & H4).
    apply lang_lit_inv in H1, H2, H4. apply lang_dot_inv in H3.
    destruct H3 as (c & -> & Hc). subst. now exists c.
  - intros (c & Hc & ->).
    change [a; ch "."; c; b] with ([a] ++ [ch "."] ++ [c] ++ [b]).
    repeat constructor. assumption.
Qed.

Lemma lang_card_alternatives (tok : str) :
  lang card_alternatives tok <-> Behaviour.loose_token tok.
Proof.
  unfold card_alternatives, Behaviour.loose_token. cbn [alts]. split.
  - intros H.
    assert (Hr : forall a b, (a = ch "0" \/ a = ch "1") ->
                             (b = ch "N" \/ b = ch "1") ->
                             lang (range_loose a b) tok ->
                             tok = py "N" \/ tok = py "1"
                             \/ exists a c b,
                                  (a = ch "0" \/ a = ch "1")
                                  /\ (b = ch "N" \/ b = ch "1")
                                  /\ c <> 10 /\ tok = [a; ch "."; c; b]).
    { intros a b Ha Hb Hl. apply lang_range_loose in Hl.
      destruct Hl as (c & Hc & ->). right. right. exists a, c, b. auto. }
    apply lang_alt_inv in H. destruct H as [H|H]; [now apply Hr in H; auto|].
    apply lang_alt_inv in H. destruct H as [H|H]; [now apply Hr in H; auto|].
    apply lang_alt_inv in H. destruct H as [H|H]; [now apply Hr in H; auto|].
    apply lang_alt_inv in H. destruct H as [H|H]; [now apply Hr in H; auto|].
    apply lang_alt_inv in H. destruct H as [H|H]; apply lang_lit_inv in H.
    + now left.
    + right. now left.
  - intros [-> | [-> | (a & c & b & Ha & Hb & Hc & ->)]].
    + do 4 apply lang_alt_r. apply lang_alt_l. constructor.
    + do 5 apply lang_alt_r. constructor.
    + assert (Hl : forall x y, lang (range_loose x y) [x; ch "."; c; y])
        by (intros x y; apply lang_range_loose; now exists c).
      destruct Ha as [-> | ->]; destruct Hb as [-> | ->].
      * apply lang_alt_l, Hl.
      * do 2 apply lang_alt_r. apply lang_alt_l, Hl.
      * apply lang_alt_r, lang_alt_l, Hl.
      * do 3 apply lang_alt_r. apply lang_alt_l, Hl.
Qed.

Lemma lang_card_closed (u : str) :
  lang card_closed u <->
  exists tok, Behaviour.loose_token tok /\ u = py "[" ++ tok ++ py "]".
Proof.
  unfold card_closed. split.
  - intros H.
    apply lang_cat_inv in H. destruct H as (u1 & r1 & -> & H1 & H).
    apply lang_cat_inv in H. destruct H as (tok & u3 & -> & H2 & H3).
    apply lang_lit_inv in H1, H3. subst.
    exists tok. split; [now apply lang_card_alternatives | reflexivity].
  - intros (tok & Ht & ->).
    change (py "[") with [ch "["]. change (py "]") with [ch "]"].
    constructor; [constructor|].
    constructor; [now apply lang_card_alternatives | constructor].
Qed.

Lemma lang_card_role (u : str) :
  lang card_role u <->
  exists tok sp, Behaviour.loose_token tok /\ Behaviour.blank sp
                 /\ u = py "[" ++ tok ++ sp ++ py "|".
Proof.
  unfold card_role. split.
  - intros H.
    apply lang_cat_inv in H. destruct H as (u1 & r1 & -> & H1 & H).
    apply lang_cat_inv in H. destruct H as (tok & r2 & -> & H2 & H).
    apply lang_cat_inv in H. destruct H as (sp & u4 & -> & H3 & H4).
    apply lang_lit_inv in H1, H4. apply lang_star_class in H3. subst.
    exists tok, sp. repeat split; [now apply lang_card_alternatives | assumption].
  - intros (tok & sp & Ht & Hsp & ->).
    change (py "[") with [ch "["]. change (py "|") with [ch "|"].
    constructor; [constructor|].
    constructor; [now apply lang_card_alternatives|].
    constructor; [now apply lang_star_class | constructor].
Qed.

(** The bar test of the source adds nothing: the role pattern ends with a
    bar. *)
Lemma role_has_bar (t : str) :
  re_search card_role t = true -> contains t (py "|") = true.
Proof.
  intros H. apply re_search_spec in H. destruct H as (a & u & v & -> & Hu).
  apply lang_card_role in Hu. destruct Hu as (tok & sp & _ & _ & ->).
  apply contains_factor. exists (a ++ py "[" ++ tok ++ sp), v.
  now rewrite <- !app_assoc.
Qed.

Lemma accepted_iff (t : str) :
  Behaviour.accepted_segment t <->
  re_search card_closed t = true
  \/ contains t (py "|") && re_search card_role t = true.
Proof.
  unfold Behaviour.accepted_segment. split.
  - intros (tok & pre & post & Ht & [-> | (sp & Hsp & ->)]).
    + left. apply re_search_spec. exists pre, (py "[" ++ tok ++ py "]"), post.
      split; [now rewrite <- !app_assoc | apply lang_card_closed; eauto].
    + right.
      assert (H : re_search card_role
                    (pre ++ py "[" ++ tok ++ sp ++ py "|" ++ post) = true).
      { apply re_search_spec. exists pre, (py "[" ++ tok ++ sp ++ py "|"), post.
        split; [now rewrite <- !app_assoc | apply lang_card_role; eauto]. }
      now rewrite H, (role_has_bar _ H).
  - intros [H|H].
    + apply re_search_spec in H. destruct H as (a & u & v & -> & Hu).
      apply lang_card_closed in Hu. destruct Hu as (tok & Ht & ->).
      exists tok, a, v. split; [assumption|]. left. now rewrite <- !app_assoc.
    + apply andb_true_iff in H. destruct H as [_ H].
      apply re_search_spec in H. destruct H as (a & u & v & -> & Hu).
      apply lang_card_role in Hu. destruct Hu as (tok & sp & Ht & Hsp & ->).
      exists tok, a, v. split; [assumption|]. right. exists sp.
      split; [assumption | now rewrite <- !app_assoc].
Qed.

Lemma offendingb_iff (t : str) :
  Behaviour.offendingb t = true <-> Behaviour.offending t.
Proof.
  unfold Behaviour.offendingb, Behaviour.offending.
  rewrite accepted_iff.
  rewrite <- (contains_char t (ch "[")), <- (contains_char t (ch "]")).
  change [ch "["] with (py "["). change [ch "]"] with (py "]").
  destruct (contains t (py "[")); destruct (contains t (py "]"));
    destruct (re_search card_closed t);
    destruct (contains t (py "|") && re_search card_role t);
    cbn [andb negb]; intuition discriminate.
Qed.

Lemma card_token_step_offending (i : nat) (l t : str) :
  card_token_step i l [] t
  = if Behaviour.offendingb t then [UnrecognizedCardinality i (strip l)] else [].
Proof.
  unfold card_token_step, Behaviour.offendingb.
  destruct (contains t (py "[")); destruct (contains t (py "]"));
    destruct (re_search card_closed t);
    destruct (contains t (py "|") && re_search card_role t); reflexivity.
Qed.

Lemma in_cardinality_issue (lines : list str) (n : nat) (s : str) :
  In (UnrecognizedCardinality n s) (check_lines lines) <->
  exists l t, line_at lines n = Some l /\ s = strip l
              /\ Spec.in_rel_block lines n /\ Spec.has_arrow l
              /\ In t (split l (py "->")) /\ Behaviour.offending t.
Proof.
  rewrite in_own. cbn [issue_check checks nth].
  rewrite check_cardinalities_eq. cbn [app]. rewrite in_card_emit. split.
  - intros (i & l & t & Hl & E & Hrb & Harrow & Ht & H1 & H2 & H3 & H4).
    injection E as <- ->. exists l, t.
    split; [assumption|]. split; [reflexivity|].
    split; [apply rel_block_at_spec in Hrb; tauto|].
    split; [now apply contains_factor in Harrow|].
    split; [assumption|].
    apply offendingb_iff. unfold Behaviour.offendingb.
    now rewrite H1, H2, H3, H4.
  - intros (l & t & Hl & -> & Hrb & Harrow & Ht & Ho).
    apply offendingb_iff in Ho. unfold Behaviour.offendingb in Ho.
    rewrite !andb_true_iff, !negb_true_iff in Ho.
    destruct Ho as [[[H1 H2] H3] H4].
    exists n, l, t. repeat split; try assumption.
    + apply rel_block_at_spec. eauto.
    + now apply contains_factor.
Qed.

(** X7. A cardinality issue for line [n] is raised exactly when line [n] is
    inside a relationship block, has an arrow, and one of its segments has
    both brackets but neither a bracketed token nor an opening bracket, a
    token, whitespace and a bar; the tokens being [N], [1] and the four ranges
    with any character but a line feed for their second dot.  The issue
    carries the trimmed line. *)
Theorem cardinality_issue_exactly (lines : list str) (n : nat) (s : str) :
  In (UnrecognizedCardinality n s) (check_lines lines) <->
  exists l t, line_at lines n = Some l /\ s = strip l
              /\ Spec.in_rel_block lines n /\ Spec.has_arrow l
              /\ In t (split l (py "->")) /\ Behaviour.offending t.
Proof. apply in_cardinality_issue. Qed.

Lemma count_offending (i : nat) (l : str) (ts : list str) :
  count_occ Issue_eq_dec (flat_map (card_token_step i l []) ts)
    (UnrecognizedCardinality i (strip l))
  = List.length (filter Behaviour.offendingb ts).
Proof.
  induction ts as [|t ts IH]; [reflexivity|].
  cbn [flat_map filter]. rewrite count_occ_app, IH, card_token_step_offending.
  destruct (Behaviour.offendingb t); [|reflexivity].
  now rewrite count_occ_cons_eq by reflexivity.
Qed.

(** X8. The cardinality issue of a line is repeated once for each offending
    segment of the line: a line inside a relationship block with an arrow is
    reported as many times as it has segments with both brackets and no
    accepted cardinality. *)
Theorem cardinality_issue_per_segment (lines : list str) (n : nat) (l : str) :
  line_at lines n = Some l -> Spec.in_rel_block lines n -> Spec.has_arrow l ->
  count_occ Issue_eq_dec (check_lines lines)
    (UnrecognizedCardinality n (strip l))
  = List.length (filter Behaviour.offendingb (split l (py "->")))
  /\ forall t, Behaviour.offendingb t = true <-> Behaviour.offending t.
Proof.
  intros Hl Hrb Harrow. split; [|apply offendingb_iff].
  rewrite count_occ_own. cbn [issue_check checks nth].
  rewrite check_cardinalities_eq. cbn [app].
  rewrite (@count_run_emit_lines _ card_step _ n).
  - rewrite Hl, card_emit_eq.
    rewrite (proj2 (rel_flag_spec lines n Hl) Hrb).
    apply contains_factor in Harrow. rewrite Harrow.
    apply count_offending.
  - intros st i l' Hi H. rewrite card_emit_eq in H.
    destruct (rel_enter st l'); [|contradiction].
    destruct (contains l' (py "->")); [|contradiction].
    apply in_flat_map in H. destruct H as (t & _ & H).
    apply in_card_token_step in H. destruct H as [E _].
    injection E as E _. congruence.
Qed.

Lemma cardinality_issue_per_segment_witness :
  count_occ Issue_eq_dec (check_lines Cases.twice_bad)
    (UnrecognizedCardinality 1 (strip (py "relationship R { A [x] -> B [y] }")))
  = List.length
      (filter Behaviour.offendingb
         (split (py "relationship R { A [x] -> B [y] }") (py "->")))
  /\ forall t, Behaviour.offendingb t = true <-> Behaviour.offending t.
Proof.
  apply (@cardinality_issue_per_segment Cases.twice_bad 1
           (py "relationship R { A [x] -> B [y] }")).
  - reflexivity.
  - exists 1%nat, (py "relationship R { A [x] -> B [y] }").
    split; [lia|]. split; [reflexivity|]. split.
    + exists (py "R { A [x] -> B [y] }"). reflexivity.
    + intros k lk Hk. lia.
  - exists (py "relationship R { A [x] "), (py " B [y] }"). reflexivity.
Defined.

End Accepted.

(* ================================================================== *)
(** * Declarations: what is looked at *)

Section FirstCharacter.

Local Open Scope N_scope.

Lemma alpha_not_space (c : char) : alpha_us c = true -> isspace c = false.
Proof.
  intros H.
  assert (Hr : 0x41 <= c <= 0x7A).
  { unfold alpha_us, is_upper, is_lower in H.
    rewrite !orb_true_iff, !andb_true_iff, !N.leb_le, N.eqb_eq in H. lia. }
  destruct (isspace c) eqn:E; [|reflexivity]. exfalso.
  unfold isspace in E.
  rewrite !orb_true_iff, !andb_true_iff, !N.leb_le, !N.eqb_eq in E. lia.
Qed.

Lemma declaration_name_start (kw rest : str) :
  Spec.declaration kw (kw ++ 32 :: rest) <-> Behaviour.name_start rest.
Proof.
  unfold Spec.declaration, Behaviour.name_start, Spec.spaces, Spec.identifier.
  split.
  - intros (sp & id & rest' & E & [Hne Hsp] & c & cs & -> & Hc & _).
    apply app_inv_head in E. destruct sp as [|x sp]; [congruence|].
    injection E as _ ->. inversion Hsp as [|? ? _ Hsp']; subst.
    exists c, (cs ++ rest').
    split; [|assumption].
    rewrite lstrip_app_blank by assumption. simpl.
    now rewrite (alpha_not_space c Hc).
  - intros (c & tail & E & Hc).
    destruct (lstrip_split rest) as (a & Ea & Ha & _). rewrite E in Ea.
    exists (32 :: a), [c], tail. rewrite Ea. split; [reflexivity|]. split.
    + split; [discriminate|]. constructor; [reflexivity | assumption].
    + exists c, []. repeat split; [assumption | constructor].
Qed.

Lemma entity_name_start (rest : str) :
  (Spec.entity_declaration (py "entity " ++ rest)
   <-> Behaviour.name_start rest)
  /\ (Spec.entity_declaration (py "weak entity " ++ rest)
      <-> Behaviour.name_start rest).
Proof.
  unfold Spec.entity_declaration. split; split.
  - intros (weak & [-> | ->] & H).
    + now apply (declaration_name_start (py "entity") rest).
    + destruct H as (sp & id & r & E & _). discriminate.
  - intros H. exists []. split; [now left|].
    now apply (declaration_name_start (py "entity") rest).
  - intros (weak & [-> | ->] & H).
    + destruct H as (sp & id & r & E & _). discriminate.
    + now apply (declaration_name_start (py "weak entity") rest).
  - intros H. exists (py "weak "). split; [now right|].
    now apply (declaration_name_start (py "weak entity") rest).
Qed.

Lemma invalid_entity_iff (lines : list str) (n : nat) (l : str) :
  line_at lines n = Some l ->
  (In (InvalidEntity n (strip l)) (check_lines lines) <->
   (Spec.trimmed_starts (py "entity ") l
    \/ Spec.trimmed_starts (py "weak entity ") l)
   /\ ~ Spec.entity_declaration (strip l)).
Proof.
  intros Hl. rewrite <- orb_starts, <- entity_match_iff. split.
  - intros H. apply in_check_decls in H; [|reflexivity].
    destruct H as (i & l' & Hl' & H). apply in_decl_step in H.
    destruct H as [(E & Hs & Hm)|(E & _)]; [|discriminate].
    injection E as <- E. rewrite E. split; congruence.
  - intros [Hs Hm]. apply check_decls_in with (i := n) (l := l); [assumption|].
    apply in_decl_step. left. repeat split; [assumption|].
    now destruct (re_match ENTITY_DECL (strip l)
                  || re_match WEAK_ENTITY_DECL (strip l)).
Qed.

Lemma invalid_relationship_iff (lines : list str) (n : nat) (l : str) :
  line_at lines n = Some l ->
  (In (InvalidRelationship n (strip l)) (check_lines lines) <->
   Spec.trimmed_starts (py "relationship ") l
   /\ ~ Spec.relationship_declaration (strip l)).
Proof.
  intros Hl. rewrite trimmed_starts_iff, <- relationship_match_iff. split.
  - intros H. apply in_check_decls in H; [|reflexivity].
    destruct H as (i & l' & Hl' & H). apply in_decl_step in H.
    destruct H as [(E & _)|(E & Hs & Hm)]; [discriminate|].
    injection E as <- E. rewrite E. split; congruence.
  - intros [Hs Hm]. apply check_decls_in with (i := n) (l := l); [assumption|].
    apply in_decl_step. right. repeat split; [assumption|].
    now destruct (re_match REL_DECL (strip l)).
Qed.

(** X9. Of a declared name only the first character is checked: a line that
    (trimmed) is [entity ], [weak entity ] or [relationship ] followed by some
    text raises the declaration issue if and only if that text, after its
    leading whitespace, does not start with a letter or an underscore.  What
    follows that character is never looked at. *)
Theorem only_first_character_of_name_is_checked
    (lines : list str) (n : nat) (l rest : str) :
  line_at lines n = Some l ->
  (strip l = py "entity " ++ rest \/ strip l = py "weak entity " ++ rest ->
   (In (InvalidEntity n (strip l)) (check_lines lines)
    <-> ~ Behaviour.name_start rest))
  /\ (strip l = py "relationship " ++ rest ->
      (In (InvalidRelationship n (strip l)) (check_lines lines)
       <-> ~ Behaviour.name_start rest)).
Proof.
  intros Hl. split.
  - intros Hs. rewrite (invalid_entity_iff lines n Hl).
    destruct (entity_name_start rest) as [He Hw].
    destruct Hs as [E|E]; rewrite E.
    + rewrite He. split; [tauto|]. intros H. split; [|assumption].
      left. now exists rest.
    + rewrite Hw. split; [tauto|]. intros H. split; [|assumption].
      right. now exists rest.
  - intros E. rewrite (invalid_relationship_iff lines n Hl), E.
    unfold Spec.relationship_declaration.
    rewrite (declaration_name_start (py "relationship") rest).
    split; [tauto|]. intros H. split; [|assumption]. now exists rest.
Qed.

Lemma only_first_character_of_name_is_checked_witness :
  (strip (py "entity A-b$ {") = py "entity " ++ py "A-b$ {"
   \/ strip (py "entity A-b$ {") = py "weak entity " ++ py "A-b$ {" ->
   (In (InvalidEntity 1 (strip (py "entity A-b$ {")))
      (check_lines Cases.odd_name)
    <-> ~ Behaviour.name_start (py "A-b$ {")))
  /\ (strip (py "entity A-b$ {") = py "relationship " ++ py "A-b$ {" ->
      (In (InvalidRelationship 1 (strip (py "entity A-b$ {")))
         (check_lines Cases.odd_name)
       <-> ~ Behaviour.name_start (py "A-b$ {"))).
Proof.
  apply (@only_first_character_of_name_is_checked Cases.odd_name 1%nat
           (py "entity A-b$ {") (py "A-b$ {")).
  reflexivity.
Defined.

End FirstCharacter.

(* ================================================================== *)
(** * Blank documents and passing documents *)

Section Passing.

Local Open Scope N_scope.

Lemma in_check_lines_cases (lines : list str) (x : Issue) :
  In x (check_lines lines) <->
  In x (check_header lines []) \/ In x (check_notation lines [])
  \/ In x (check_braces lines [])
  \/ In x (flat_map (decl_step []) (enumerate lines 1))
  \/ In x (run_emit card_step false (enumerate lines 1))
  \/ In x (flat_map (quote_step []) (enumerate lines 1)).
Proof. rewrite check_lines_eq, !in_app_iff. tauto. Qed.

Lemma balanced_check_braces (lines : list str) :
  Behaviour.balanced lines -> check_braces lines [] = [].
Proof.
  intros B. apply no_In_nil. intros x Hx.
  assert (Hin : In x (check_lines lines))
    by (apply in_check_lines_cases; tauto).
  apply silent_iff_balanced in B. destruct B as [Hm Hu].
  rewrite check_braces_spec, in_app_iff in Hx. destruct Hx as [Hx|Hx].
  - apply in_map_iff in Hx. destruct Hx as (m & <- & _). now apply (Hu m).
  - destruct (_ =? _)%Z; [contradiction|]. destruct Hx as [<-|[]].
    contradiction.
Qed.

Lemma blank_count (s : str) (c : char) :
  Behaviour.blank s -> isspace c = false -> count_occ N.eq_dec s c = 0%nat.
Proof.
  intros Hs Hc. apply count_occ_not_In. intros Hin.
  unfold Behaviour.blank in Hs. rewrite Forall_forall in Hs.
  specialize (Hs c Hin). congruence.
Qed.

Lemma blank_delta (l : str) : Behaviour.blank l -> Spec.brace_delta l = 0%Z.
Proof.
  intros H. unfold Spec.brace_delta.
  now rewrite !blank_count by (assumption || reflexivity).
Qed.

Lemma blank_sum (lines : list str) :
  Forall Behaviour.blank lines -> Spec.brace_sum lines = 0%Z.
Proof.
  induction 1 as [|l lines Hl _ IH]; simpl; [reflexivity|].
  now rewrite (blank_delta Hl), IH.
Qed.

Lemma Forall_prefix (A : Type) (P : A -> Prop) (l : list A) (k : nat) :
  Forall P l -> Forall P (firstn k l).
Proof.
  intros H. rewrite <- (firstn_skipn k l) in H.
  apply Forall_app in H. tauto.
Qed.

Lemma blank_not_started (prefix l : str) :
  Behaviour.blank l -> prefix <> [] -> ~ Spec.trimmed_starts prefix l.
Proof.
  intros Hl Hp [rest E]. rewrite (strip_blank Hl) in E.
  destruct prefix; [congruence | discriminate].
Qed.

(** X10. A document of blank lines only, the empty document among them, yields
    the header issue and the notation issue and nothing else. *)
Theorem blank_document (lines : list str) :
  Forall Behaviour.blank lines ->
  check_lines lines = [MissingHeader; MissingNotation].
Proof.
  intros Hb. rewrite check_lines_eq.
  assert (Hall : forall l, In l lines -> Behaviour.blank l)
    by now apply Forall_forall.
  assert (Hh : check_header lines [] = [MissingHeader]).
  { apply check_header_missing. destruct lines as [|l0 rest]; [now left|].
    right. exists l0, rest. split; [reflexivity|].
    apply blank_not_started; [apply Hall; now left | discriminate]. }
  assert (Hn : check_notation lines [] = [MissingNotation]).
  { unfold check_notation.
    destruct (existsb _ _) eqn:E; [|reflexivity].
    apply notation_found in E. destruct E as (i & l & _ & Hl & Hs).
    exfalso. revert Hs. apply blank_not_started; [|discriminate].
    apply Hall. now apply line_at_In in Hl. }
  assert (Hbr : check_braces lines [] = []).
  { apply balanced_check_braces. split; [|now apply blank_sum].
    intros k _. rewrite blank_sum; [lia|]. now apply Forall_prefix. }
  assert (Hd : flat_map (decl_step []) (enumerate lines 1) = []).
  { apply no_In_nil. intros x H. apply in_flat_map_lines in H.
    destruct H as (i & l & Hl & H). apply line_at_In, Hall in Hl.
    apply in_decl_step in H.
    rewrite (strip_blank Hl) in H.
    destruct H as [(_ & H & _)|(_ & H & _)]; discriminate. }
  assert (Hc : run_emit card_step false (enumerate lines 1) = []).
  { apply no_In_nil. intros x H. apply in_card_emit in H.
    destruct H as (i & l & t & _ & _ & Hrb & _).
    apply rel_block_at_spec in Hrb.
    destruct Hrb as [_ (j & lj & _ & Hlj & Hs & _)].
    revert Hs. apply blank_not_started; [|discriminate].
    apply Hall. now apply line_at_In in Hlj. }
  assert (Hq : flat_map (quote_step []) (enumerate lines 1) = []).
  { apply no_In_nil. intros x H. apply in_flat_map_lines in H.
    destruct H as (i & l & Hl & H). apply line_at_In, Hall in Hl.
    apply in_quote_step in H. destruct H as [_ H].
    apply contains_char in H.
    unfold Behaviour.blank in Hl. rewrite Forall_forall in Hl.
    specialize (Hl _ H). discriminate. }
  now rewrite Hh, Hn, Hbr, Hd, Hc, Hq.
Qed.

Lemma blank_document_witness :
  check_lines Cases.blanks = [MissingHeader; MissingNotation].
Proof.
  apply (@blank_document Cases.blanks).
  repeat constructor.
Defined.

Lemma In_line_at (lines : list str) (l : str) :
  In l lines -> exists n, line_at lines n = Some l.
Proof.
  intros H. apply In_nth_error in H. destruct H as [k Hk].
  now exists (Datatypes.S k).
Qed.

Lemma passing_no_issue (lines : list str) :
  Behaviour.passing lines -> check_lines lines = [].
Proof.
  intros P. apply no_In_nil. intros x Hx.
  apply in_check_lines_cases in Hx.
  destruct Hx as [H|[H|[H|[H|[H|H]]]]].
  - rewrite (check_header_present (Behaviour.pass_header P)) in H.
    contradiction.
  - unfold check_notation in H.
    rewrite (proj2 (notation_found lines) (Behaviour.pass_notation P)) in H.
    contradiction.
  - rewrite (balanced_check_braces (Behaviour.pass_braces P)) in H.
    contradiction.
  - apply in_flat_map_lines in H. destruct H as (i & l & Hl & H).
    pose proof (line_at_In _ _ Hl) as Hin.
    apply in_decl_step in H. destruct H as [(_ & Hs & Hm)|(_ & Hs & Hm)].
    + apply orb_starts in Hs.
      apply (@Behaviour.pass_entity lines P l Hin) in Hs.
      apply entity_match_iff in Hs. congruence.
    + apply trimmed_starts_iff in Hs.
      apply (@Behaviour.pass_relationship lines P l Hin) in Hs.
      apply relationship_match_iff in Hs. congruence.
  - apply in_card_emit in H.
    destruct H as (i & l & t & Hl & _ & Hrb & Harrow & Ht & H1 & H2 & H3 & H4).
    apply (@Behaviour.pass_cardinality lines P i l t); try assumption.
    + apply rel_block_at_spec in Hrb. tauto.
    + now apply contains_factor in Harrow.
    + apply offendingb_iff. unfold Behaviour.offendingb.
      now rewrite H1, H2, H3, H4.
  - apply in_flat_map_lines in H. destruct H as (i & l & Hl & H).
    apply in_quote_step in H. destruct H as [_ H].
    apply contains_char in H.
    now apply (@Behaviour.pass_no_quote lines P l (line_at_In _ _ Hl)).
Qed.

Lemma no_issue_passing (lines : list str) :
  check_lines lines = [] -> Behaviour.passing lines.
Proof.
  intros H0.
  assert (Hno : forall x, ~ In x (check_lines lines))
    by (intros x; now rewrite H0).
  constructor.
  - intros Hm. apply (Hno MissingHeader). apply in_check_lines_cases. left.
    rewrite (check_header_missing Hm). now left.
  - apply notation_found.
    destruct (existsb _ (firstn 10 lines)) eqn:E; [reflexivity|].
    exfalso. apply (Hno MissingNotation). apply in_check_lines_cases.
    right. left. unfold check_notation. rewrite E. now left.
  - apply silent_iff_balanced. split; [apply Hno | intros n; apply Hno].
  - intros l Hin Hs. destruct (In_line_at _ _ Hin) as [n Hl].
    apply entity_match_iff.
    destruct (re_match ENTITY_DECL (strip l)
              || re_match WEAK_ENTITY_DECL (strip l)) eqn:E; [reflexivity|].
    exfalso. apply (Hno (InvalidEntity n (strip l))).
    apply (invalid_entity_iff lines n Hl). split; [assumption|].
    rewrite <- entity_match_iff. congruence.
  - intros l Hin Hs. destruct (In_line_at _ _ Hin) as [n Hl].
    apply relationship_match_iff.
    destruct (re_match REL_DECL (strip l)) eqn:E; [reflexivity|].
    exfalso. apply (Hno (InvalidRelationship n (strip l))).
    apply (invalid_relationship_iff lines n Hl). split; [assumption|].
    rewrite <- relationship_match_iff. congruence.
  - intros i l t Hl Hrb Harrow Ht Ho.
    apply (Hno (UnrecognizedCardinality i (strip l))).
    apply in_cardinality_issue. exists l, t. auto 10.
  - intros l Hin Hq. destruct (In_line_at _ _ Hin) as [n Hl].
    apply (Hno (QuotedIdentifiers n)). apply in_check_lines_cases.
    do 5 right. apply in_flat_map_lines. exists n, l.
    split; [assumption|]. apply in_quote_step.
    split; [reflexivity | now apply contains_char].
Qed.

(** X11. [check_file] returns no issue exactly for the documents that have an
    [erdiagram] first line, a [notation=] line among the first ten, balanced
    braces, well-formed entity and relationship declarations, an
    accepted cardinality in every bracketed segment of the arrow lines inside
    relationship blocks, and no double quote. *)
Theorem no_issue_iff_passing (lines : list str) :
  check_lines lines = [] <-> Behaviour.passing lines.
Proof. split; [apply no_issue_passing | apply passing_no_issue]. Qed.

(** X12. The program exits with status 0 exactly when it is given one path,
    the path exists, its text can be read and the document passes; it then
    prints the pass message and nothing else. *)
Theorem exit_zero_iff_passing (w : World) (argv : list str) :
  ((exists out, main w argv = Exit out 0) <->
   exists prog p text,
     argv = [prog; p] /\ path_exists w p = true
     /\ path_read_text w p = Some text
     /\ Behaviour.passing (splitlines text))
  /\ forall out, main w argv = Exit out 0 -> out = [pass_message].
Proof.
  assert (Hinv : forall out, main w argv = Exit out 0 ->
            out = [pass_message]
            /\ exists prog p text,
                 argv = [prog; p] /\ path_exists w p = true
                 /\ path_read_text w p = Some text
                 /\ check_lines (splitlines text) = []).
  { intros out H. unfold main in H.
    destruct (Nat.eqb_spec (List.length argv) 2) as [Hlen|Hlen];
      simpl in H; [|discriminate].
    destruct argv as [|prog [|p [|? ?]]]; try discriminate. simpl in H.
    destruct (path_exists w p) eqn:He; simpl in H; [|discriminate].
    unfold check_file in H.
    destruct (path_read_text w p) as [text|] eqn:Hr; [|discriminate].
    destruct (check_lines (splitlines text)) as [|it its] eqn:E;
      simpl in H; [|discriminate].
    injection H as <-. split; [reflexivity|]. exists prog, p, text. auto. }
  split; [split|].
  - intros [out H]. destruct (Hinv out H) as [_ (prog & p & text & H')].
    exists prog, p, text. destruct H' as (H1 & H2 & H3 & H4).
    split; [assumption|]. split; [assumption|]. split; [assumption|].
    now apply no_issue_passing.
  - intros (prog & p & text & -> & He & Hr & P). exists [pass_message].
    rewrite main_two_args, He. unfold check_file.
    now rewrite Hr, (passing_no_issue P).
  - intros out H. now destruct (Hinv out H).
Qed.

End Passing.

(* ================================================================== *)
(** * The order of the issues *)

Section Order.

Lemma sorted_app (A : Type) (R : A -> A -> Prop) (l1 l2 : list A) :
  StronglySorted R l1 -> StronglySorted R l2 ->
  (forall a b, In a l1 -> In b l2 -> R a b) ->
  StronglySorted R (l1 ++ l2).
Proof.
  induction 1 as [|x l1 Hs IH Hx]; intros H2 Hc; simpl; [assumption|].
  constructor.
  - apply IH; [assumption|]. intros a b Ha Hb. apply Hc; [now right | assumption].
  - apply Forall_app. split; [assumption|].
    apply Forall_forall. intros b Hb. apply Hc; [now left | assumption].
Qed.

Lemma sorted_all_pairs (A : Type) (R : A -> A -> Prop) (l : list A) :
  (forall a b, In a l -> In b l -> R a b) -> StronglySorted R l.
Proof.
  induction l as [|x l IH]; intros H; constructor.
  - apply IH. intros a b Ha Hb. apply H; now right.
  - apply Forall_forall. intros b Hb. apply H; [now left | now right].
Qed.

Lemma sorted_split (A : Type) (R : A -> A -> Prop)
    (l1 l2 l3 : list A) (a b : A) :
  StronglySorted R (l1 ++ a :: l2 ++ b :: l3) -> R a b.
Proof.
  induction l1 as [|x l1 IH]; simpl; intros H.
  - inversion H as [|? ? _ Hall]; subst.
    rewrite Forall_forall in Hall. apply Hall.
    apply in_app_iff. right. now left.
  - inversion H; subst. now apply IH.
Qed.

Section PerLine.
Variables (S : Type) (step : list Issue * S -> nat * str -> list Issue * S).
Variable k : nat.
Hypothesis emits_own :
  forall st i l x, In x (emit_of step st (i, l)) ->
                   issue_check x = k /\ Behaviour.line_rank x = Some i.

Lemma run_emit_sorted (lines : list str) (s : nat) (st : S) :
  StronglySorted Behaviour.reported_before
    (run_emit step st (enumerate lines s))
  /\ forall x, In x (run_emit step st (enumerate lines s)) ->
               issue_check x = k
               /\ exists j, s <= j /\ Behaviour.line_rank x = Some j.
Proof.
  revert s st. induction lines as [|a ls IH]; intros s st.
  - simpl. split; [constructor | contradiction].
  - rewrite enumerate_cons. cbn [run_emit].
    destruct (IH (Datatypes.S s) (next_of step st (s, a))) as [IHs IHx].
    split.
    + apply sorted_app; [|assumption|].
      * apply sorted_all_pairs. intros x y Hx Hy.
        destruct (emits_own _ _ _ _ Hx) as [Hk Hr].
        destruct (emits_own _ _ _ _ Hy) as [Hk' Hr'].
        right. rewrite Hk, Hk', Hr, Hr'. auto.
      * intros x y Hx Hy.
        destruct (emits_own _ _ _ _ Hx) as [Hk Hr].
        destruct (IHx y Hy) as [Hk' (j & Hj & Hr')].
        right. rewrite Hk, Hk', Hr, Hr'. split; [reflexivity | lia].
    + intros x Hx. apply in_app_iff in Hx. destruct Hx as [Hx|Hx].
      * destruct (emits_own _ _ _ _ Hx) as [Hk Hr]. split; [assumption|].
        exists s. auto.
      * destruct (IHx x Hx) as [Hk (j & Hj & Hr)]. split; [assumption|].
        exists j. split; [lia | assumption].
Qed.
End PerLine.

(** A loop without state is a loop over the state [tt]. *)
Lemma flat_map_run_emit (f : nat * str -> list Issue) (l : list (nat * str)) :
  flat_map f l
  = run_emit (fun (st : list Issue * unit) a => (fst st ++ f a, tt)) tt l.
Proof.
  induction l as [|a l IH]; [reflexivity|].
  cbn [flat_map run_emit]. now rewrite IH.
Qed.

Lemma flat_map_sorted (f : nat * str -> list Issue) (k : nat)
    (lines : list str) :
  (forall i l x, In x (f (i, l)) ->
                 issue_check x = k /\ Behaviour.line_rank x = Some i) ->
  StronglySorted Behaviour.reported_before (flat_map f (enumerate lines 1)).
Proof.
  intros Hf. rewrite flat_map_run_emit.
  refine (proj1 (@run_emit_sorted unit _ k _ lines 1 tt)).
  intros st i l x Hx. apply (Hf i l x). exact Hx.
Qed.

Lemma concat_sorted (parts : list (list Issue)) (base : nat) :
  (forall j x, In x (nth j parts []) -> issue_check x = base + j) ->
  Forall (StronglySorted Behaviour.reported_before) parts ->
  StronglySorted Behaviour.reported_before (List.concat parts).
Proof.
  revert base. induction parts as [|p ps IH]; intros base Hown Hs.
  - constructor.
  - cbn [List.concat]. inversion Hs as [|? ? Hp Hps]; subst.
    apply sorted_app; [assumption | |].
    + apply (IH (Datatypes.S base)); [|assumption].
      intros j x Hx. rewrite (Hown (Datatypes.S j) x Hx). lia.
    + intros a b Ha Hb. left.
      rewrite (Hown 0 a Ha).
      apply in_concat in Hb. destruct Hb as (q & Hq & Hb).
      destruct (In_nth _ _ [] Hq) as (j & Hj & <-).
      rewrite (Hown (Datatypes.S j) b Hb). lia.
Qed.

Lemma checks_sorted (lines : list str) :
  Forall (StronglySorted Behaviour.reported_before) (checks lines).
Proof.
  unfold checks. repeat constructor.
  - apply sorted_all_pairs. intros a b Ha Hb.
    apply in_check_header in Ha, Hb. subst. right. simpl. auto.
  - apply sorted_all_pairs. intros a b Ha Hb.
    apply in_check_notation in Ha, Hb. subst. right. simpl. auto.
  - rewrite check_braces_eq. cbn [app].
    assert (Hown : forall st i l x, In x (emit_of brace_step st (i, l)) ->
                     issue_check x = 2 /\ Behaviour.line_rank x = Some i).
    { intros st i l x Hx. rewrite brace_emit_eq in Hx.
      destruct (_ <? _)%Z; [|contradiction]. destruct Hx as [<-|[]]. auto. }
    destruct (@run_emit_sorted _ brace_step 2 Hown lines 1 0%Z) as [Hs Hx].
    apply sorted_app; [assumption | |].
    + destruct (_ =? _)%Z; repeat constructor.
    + intros a b Ha Hb. destruct (_ =? _)%Z; [contradiction|].
      destruct Hb as [<-|[]]. destruct (Hx a Ha) as [Hk (j & _ & Hr)].
      right. rewrite Hk, Hr. simpl. auto.
  - rewrite check_decls_eq. cbn [app]. apply flat_map_sorted with (k := 3).
    intros i l x Hx. apply in_decl_step in Hx.
    destruct Hx as [(-> & _)|(-> & _)]; auto.
  - rewrite check_cardinalities_eq. cbn [app].
    refine (proj1 (@run_emit_sorted _ card_step 4 _ lines 1 false)).
    intros st i l x Hx.
    rewrite card_emit_eq in Hx.
    destruct (rel_enter st l); [|contradiction].
    destruct (contains l (py "->")); [|contradiction].
    apply in_flat_map in Hx. destruct Hx as (t & _ & Hx).
    apply in_card_token_step in Hx. destruct Hx as [-> _]. auto.
  - rewrite check_quotes_eq. cbn [app]. apply flat_map_sorted with (k := 5).
    intros i l x Hx. apply in_quote_step in Hx. destruct Hx as [-> _]. auto.
Qed.

(** X13. The issues come out check by check, in the order header, notation,
    braces, declarations, cardinalities, quotes, and line by line within a
    check, the mismatched-braces issue after the unmatched-brace issues:
    whenever an issue stands before another in the result, its check comes
    first or is the same with a line number that is not larger. *)
Theorem issues_in_source_order
    (lines : list str) (l1 l2 l3 : list Issue) (a b : Issue) :
  check_lines lines = l1 ++ a :: l2 ++ b :: l3 ->
  Behaviour.reported_before a b.
Proof.
  intros E. apply (@sorted_split _ _ l1 l2 l3). rewrite <- E.
  rewrite check_lines_concat. apply (@concat_sorted _ 0).
  - intros j x Hx. now apply checks_own in Hx.
  - apply checks_sorted.
Qed.

Lemma issues_in_source_order_witness :
  Behaviour.reported_before MissingNotation (UnmatchedClosingBrace 3).
Proof.
  apply (@issues_in_source_order Examples.two_strays
           [MissingHeader] [UnmatchedClosingBrace 1] []).
  reflexivity.
Defined.

End Order.

(* ================================================================== *)
(** * Texts, exit statuses and trimming *)

Section Outcomes.

Lemma map_issue_text_inj (l1 l2 : list Issue) :
  map issue_text l1 = map issue_text l2 -> l1 = l2.
Proof.
  revert l2. induction l1 as [|a l1 IH]; intros [|b l2] H;
    try discriminate; [reflexivity|].
  simpl in H. injection H as Hab H.
  apply issue_text_inj in Hab. apply IH in H. now subst.
Qed.

(** X14. The strings [check_file] returns tell the findings apart: two lists
    of issues with the same texts are the same list, check, line number and
    quoted text included. *)
Theorem issues_recoverable_from_texts (l1 l2 : list Issue) :
  map issue_text l1 = map issue_text l2 -> l1 = l2.
Proof. apply map_issue_text_inj. Qed.

Lemma issues_recoverable_from_texts_witness :
  [InvalidEntity 12 (py "entity 2Bad"); QuotedIdentifiers 1]
  = [InvalidEntity 12 (py "entity 2Bad"); QuotedIdentifiers 1].
Proof.
  apply (@issues_recoverable_from_texts
           [InvalidEntity 12 (py "entity 2Bad"); QuotedIdentifiers 1]
           [InvalidEntity 12 (py "entity 2Bad"); QuotedIdentifiers 1]).
  reflexivity.
Defined.





(** X17. Trimming cuts exactly the surrounding whitespace: a text is its
    trimmed form between two runs of whitespace, the trimmed form neither
    starts nor ends with whitespace, and trimming twice is trimming once. *)
Theorem strip_cuts_surrounding_whitespace (s : str) :
  (exists a b, s = a ++ strip s ++ b /\ Behaviour.blank a /\ Behaviour.blank b)
  /\ (forall c t, strip s = c :: t -> isspace c = false)
  /\ (forall c t, strip s = t ++ [c] -> isspace c = false)
  /\ strip (strip s) = strip s.
Proof.
  split; [apply strip_parts|]. split; [|split].
  - intros c t. apply strip_head.
  - intros c t. apply strip_last.
  - apply strip_idempotent.
Qed.

End Outcomes.

(* ================================================================== *)
(** * Surrounding whitespace changes nothing *)

Section Padding.

Local Open Scope N_scope.

Lemma bool_iff (a b : bool) : (a = true <-> b = true) -> a = b.
Proof. destruct a, b; intuition congruence. Qed.

Lemma blank_In (x : str) (c : char) :
  Behaviour.blank x -> In c x -> isspace c = true.
Proof. unfold Behaviour.blank. rewrite Forall_forall. auto. Qed.

Lemma split_from_cur (sep : str) (k : nat) (cur s : str) :
  exists t ts, split_from sep k [] s = t :: ts
               /\ split_from sep k cur s = (rev cur ++ t) :: ts.
Proof.
  revert k cur. induction s as [|c s IH]; intros k cur.
  - exists [], []. simpl. now rewrite app_nil_r.
  - destruct k as [|k]; cbn [split_from].
    + destruct (startswith (c :: s) sep).
      * exists [], (split_from sep (List.length sep - 1) [] s).
        simpl. now rewrite app_nil_r.
      * destruct (IH 0%nat [c]) as (t & ts & E0 & E1).
        destruct (IH 0%nat (c :: cur)) as (t' & ts' & E0' & E1').
        rewrite E0 in E0'. injection E0' as <- <-.
        exists ([c] ++ t), ts. rewrite E1, E1'. simpl.
        now rewrite <- app_assoc.
    + apply IH.
Qed.

Lemma blank_no_arrow_start (c : char) (s : str) :
  isspace c = true -> startswith (c :: s) (py "->") = false.
Proof.
  intros Hc. simpl. destruct (N.eqb_spec c 45) as [->|]; [discriminate|].
  reflexivity.
Qed.

Lemma split_lead (a l : str) :
  Behaviour.blank a ->
  exists t ts, split l (py "->") = t :: ts
               /\ split (a ++ l) (py "->") = (a ++ t) :: ts.
Proof.
  unfold split. induction 1 as [|c a Hc _ (t & ts & E0 & E1)].
  - destruct (split_from_cur (py "->") 0 [] l) as (t & ts & E & _).
    now exists t, ts.
  - exists t, ts. split; [assumption|].
    cbn [app split_from]. rewrite (@blank_no_arrow_start c (a ++ l) Hc).
    destruct (split_from_cur (py "->") 0 [c] (a ++ l)) as (t' & ts' & E & E').
    rewrite E1 in E. injection E as <- <-. now rewrite E'.
Qed.

Lemma split_blank (cur b : str) :
  Behaviour.blank b -> split_from (py "->") 0 cur b = [rev cur ++ b].
Proof.
  intros Hb. revert cur. induction Hb as [|c b Hc _ IH]; intros cur.
  - simpl. now rewrite app_nil_r.
  - cbn [split_from]. rewrite (@blank_no_arrow_start c b Hc), IH. simpl.
    now rewrite <- app_assoc.
Qed.

Lemma arrow_start_trail (c : char) (l b : str) :
  Behaviour.blank b ->
  startswith (c :: l ++ b) (py "->") = startswith (c :: l) (py "->").
Proof.
  intros Hb. simpl. destruct (c =? 45); [|reflexivity].
  destruct l as [|d l]; [|reflexivity]. simpl.
  destruct Hb as [|d b Hd _]; [reflexivity|].
  destruct (N.eqb_spec d 62) as [->|]; [discriminate | reflexivity].
Qed.

Lemma arrow_start_length (c : char) (l : str) :
  startswith (c :: l) (py "->") = true -> (1 <= List.length l)%nat.
Proof.
  simpl. destruct (c =? 45); [|discriminate].
  destruct l; [discriminate | simpl; lia].
Qed.

Lemma split_trail_from (k : nat) (cur l b : str) :
  Behaviour.blank b -> (k <= List.length l)%nat ->
  exists ps t, split_from (py "->") k cur l = ps ++ [t]
               /\ split_from (py "->") k cur (l ++ b) = ps ++ [t ++ b].
Proof.
  intros Hb. revert k cur. induction l as [|c l IH]; intros k cur Hk.
  - simpl in Hk. replace k with 0%nat by lia.
    exists [], (rev cur). cbn [app split_from]. now rewrite split_blank.
  - destruct k as [|k]; cbn [app split_from].
    + rewrite arrow_start_trail by assumption.
      destruct (startswith (c :: l) (py "->")) eqn:E.
      * apply arrow_start_length in E.
        destruct (IH (List.length (py "->") - 1)%nat [] E)
          as (ps & t & E0 & E1).
        exists (rev cur :: ps), t. now rewrite E0, E1.
      * apply IH. lia.
    + apply IH. simpl in Hk. lia.
Qed.

(** The pieces of a padded line are the pieces of the line, the first one
    after the leading whitespace and the last one before the trailing. *)
Lemma split_padded (a l b : str) :
  Behaviour.blank a -> Behaviour.blank b ->
  (exists t, split l (py "->") = [t]
             /\ split (a ++ l ++ b) (py "->") = [a ++ t ++ b])
  \/ (exists p ps t, split l (py "->") = p :: ps ++ [t]
                     /\ split (a ++ l ++ b) (py "->")
                        = (a ++ p) :: ps ++ [t ++ b]).
Proof.
  intros Ha Hb.
  destruct (@split_trail_from 0 [] l b Hb (Nat.le_0_l _)) as (ps & t & E0 & E1).
  fold (split l (py "->")) in E0. fold (split (l ++ b) (py "->")) in E1.
  destruct (split_lead (l ++ b) Ha) as (t' & ts' & E2 & E3).
  rewrite E1 in E2. destruct ps as [|p ps]; simpl in E2; injection E2 as <- <-.
  - left. exists t. now rewrite E0, E3.
  - right. exists p, ps, t. now rewrite E0, E3.
Qed.

(** A word that starts and ends with other characters than whitespace and
    lies in a padded text lies in the text. *)
Lemma factor_inside (x p y u pre post : str) (h z : char) (m m' : str) :
  Behaviour.blank x -> Behaviour.blank y ->
  u = h :: m -> u = m' ++ [z] -> isspace h = false -> isspace z = false ->
  pre ++ u ++ post = x ++ p ++ y ->
  exists pre' post', p = pre' ++ u ++ post'.
Proof.
  intros Hx Hy Eh Ez Hh Hz. revert pre.
  induction Hx as [|c x Hc _ IH]; intros pre E.
  - simpl in E. clear Eh Hh. revert Hy post E.
    induction y as [|c y IHy] using rev_ind; intros Hy post E.
    + rewrite app_nil_r in E. now exists pre, post.
    + apply Forall_app in Hy. destruct Hy as [Hy Hc].
      inversion Hc as [|? ? Hc' _]; subst.
      destruct post as [|d post' _] using rev_ind.
      * exfalso. rewrite app_nil_r, !app_assoc in E.
        apply app_inj_tail in E. destruct E as [_ ->]. congruence.
      * apply (IHy Hy post').
        rewrite !app_assoc in E. apply app_inj_tail in E.
        destruct E as [E _]. now rewrite !app_assoc.
  - destruct pre as [|d pre].
    + exfalso. rewrite Eh in E. simpl in E. injection E as -> _. congruence.
    + simpl in E. injection E as _ E. exact (IH pre E).
Qed.

End Padding.

Section PaddedChecks.

Local Open Scope N_scope.

(** Searching a padded text for a word with other characters than whitespace
    at both ends is searching the text. *)
Lemma contains_pad (x p y sub : str) (h z : char) (m m' : str) :
  Behaviour.blank x -> Behaviour.blank y ->
  sub = h :: m -> sub = m' ++ [z] -> isspace h = false -> isspace z = false ->
  contains (x ++ p ++ y) sub = contains p sub.
Proof.
  intros Hx Hy Eh Ez Hh Hz. apply bool_iff. rewrite !contains_factor. split.
  - intros (pre & post & E).
    apply (@factor_inside x p y sub pre post h z m m'); auto.
  - intros (pre & post & ->). exists (x ++ pre), (post ++ y).
    now rewrite <- !app_assoc.
Qed.

Lemma contains_char_pad (x p y : str) (c : char) :
  Behaviour.blank x -> Behaviour.blank y -> isspace c = false ->
  contains (x ++ p ++ y) [c] = contains p [c].
Proof.
  intros Hx Hy Hc. now apply (@contains_pad x p y [c] c c [] []).
Qed.

Lemma search_pad (r : re) (x p y : str) :
  Behaviour.blank x -> Behaviour.blank y ->
  (forall u, lang r u ->
             exists h z m m', u = h :: m /\ u = m' ++ [z]
                              /\ isspace h = false /\ isspace z = false) ->
  re_search r (x ++ p ++ y) = re_search r p.
Proof.
  intros Hx Hy Hr. apply bool_iff. rewrite !re_search_spec. split.
  - intros (pre & u & post & E & Hu).
    destruct (Hr u Hu) as (h & z & m & m' & Eh & Ez & Hh & Hz).
    destruct (@factor_inside x p y u pre post h z m m') as (pre' & post' & ->);
      auto.
    now exists pre', u, post'.
  - intros (pre & u & post & -> & Hu). exists (x ++ pre), u, (post ++ y).
    split; [now rewrite <- !app_assoc | assumption].
Qed.

Lemma card_closed_ends (u : str) :
  lang card_closed u ->
  exists h z m m', u = h :: m /\ u = m' ++ [z]
                   /\ isspace h = false /\ isspace z = false.
Proof.
  intros H. apply lang_card_closed in H. destruct H as (tok & _ & ->).
  exists (ch "["), (ch "]"), (tok ++ py "]"), (py "[" ++ tok).
  repeat split; now rewrite <- ?app_assoc.
Qed.

Lemma card_role_ends (u : str) :
  lang card_role u ->
  exists h z m m', u = h :: m /\ u = m' ++ [z]
                   /\ isspace h = false /\ isspace z = false.
Proof.
  intros H. apply lang_card_role in H. destruct H as (tok & sp & _ & _ & ->).
  exists (ch "["), (ch "|"), (tok ++ sp ++ py "|"), (py "[" ++ tok ++ sp).
  repeat split; now rewrite <- ?app_assoc.
Qed.

Lemma offendingb_pad (x p y : str) :
  Behaviour.blank x -> Behaviour.blank y ->
  Behaviour.offendingb (x ++ p ++ y) = Behaviour.offendingb p.
Proof.
  intros Hx Hy. unfold Behaviour.offendingb.
  change (py "[") with [ch "["]. change (py "]") with [ch "]"].
  change (py "|") with [ch "|"].
  rewrite !contains_char_pad by (assumption || reflexivity).
  rewrite (search_pad p Hx Hy card_closed_ends).
  now rewrite (search_pad p Hx Hy card_role_ends).
Qed.

Lemma offendingb_lead (x p : str) :
  Behaviour.blank x -> Behaviour.offendingb (x ++ p) = Behaviour.offendingb p.
Proof.
  intros Hx. rewrite <- (app_nil_r p) at 1.
  apply offendingb_pad; [assumption | constructor].
Qed.

Lemma offendingb_trail (p y : str) :
  Behaviour.blank y -> Behaviour.offendingb (p ++ y) = Behaviour.offendingb p.
Proof.
  intros Hy. change (p ++ y) with ([] ++ p ++ y).
  apply offendingb_pad; [constructor | assumption].
Qed.

Lemma brace_delta_pad (x l y : str) :
  Behaviour.blank x -> Behaviour.blank y ->
  Spec.brace_delta (x ++ l ++ y) = Spec.brace_delta l.
Proof.
  intros Hx Hy. unfold Spec.brace_delta. rewrite !count_occ_app.
  pose proof (@blank_count x (ch "{") Hx eq_refl) as E1.
  pose proof (@blank_count x (ch "}") Hx eq_refl) as E2.
  pose proof (@blank_count y (ch "{") Hy eq_refl) as E3.
  pose proof (@blank_count y (ch "}") Hy eq_refl) as E4.
  unfold char in *. rewrite E1, E2, E3, E4. lia.
Qed.

Section Steps.
Variables (x l y : str) (i : nat).
Hypothesis Hx : Behaviour.blank x.
Hypothesis Hy : Behaviour.blank y.

Lemma brace_step_pad (st : list Issue * Z) :
  brace_step st (i, x ++ l ++ y) = brace_step st (i, l).
Proof.
  destruct st as [acc ob]. now rewrite !brace_step_eq, brace_delta_pad.
Qed.

Lemma decl_step_pad (acc : list Issue) :
  decl_step acc (i, x ++ l ++ y) = decl_step acc (i, l).
Proof. unfold decl_step. now rewrite strip_pad. Qed.

Lemma quote_step_pad (acc : list Issue) :
  quote_step acc (i, x ++ l ++ y) = quote_step acc (i, l).
Proof.
  unfold quote_step. now rewrite contains_char_pad by (assumption || reflexivity).
Qed.

Lemma card_pieces_pad :
  flat_map (card_token_step i (x ++ l ++ y) [])
    (split (x ++ l ++ y) (py "->"))
  = flat_map (card_token_step i l []) (split l (py "->")).
Proof.
  assert (Hstep : forall t t', Behaviour.offendingb t' = Behaviour.offendingb t ->
            card_token_step i (x ++ l ++ y) [] t' = card_token_step i l [] t).
  { intros t t' E. now rewrite !card_token_step_offending, strip_pad, E. }
  destruct (split_padded l Hx Hy)
    as [(t & E0 & E1) | (p & ps & t & E0 & E1)]; rewrite E0, E1.
  - simpl. rewrite !app_nil_r. apply Hstep. now apply offendingb_pad.
  - cbn [flat_map]. rewrite !flat_map_app. cbn [flat_map].
    rewrite !app_nil_r. f_equal; [|f_equal].
    + apply Hstep. now apply offendingb_lead.
    + apply flat_map_ext. intros t'. now apply Hstep.
    + apply Hstep. now apply offendingb_trail.
Qed.

Lemma card_step_pad (st : list Issue * bool) :
  card_step st (i, x ++ l ++ y) = card_step st (i, l).
Proof.
  destruct st as [acc rb]. unfold card_step, rel_enter, rel_leave.
  rewrite strip_pad by assumption.
  rewrite (card_line_eq i (x ++ l ++ y) acc), (card_line_eq i l acc).
  rewrite (@contains_pad x l y (py "->") 45 62 [62] [45]) by
    (assumption || reflexivity).
  now rewrite card_pieces_pad.
Qed.
End Steps.

Lemma fold_left_padded (S : Type) (step : S -> nat * str -> S)
    (lines lines' : list str) :
  (forall st i l l', Behaviour.padded l l' -> step st (i, l') = step st (i, l)) ->
  Forall2 Behaviour.padded lines lines' ->
  forall s st,
    fold_left step (enumerate lines' s) st
    = fold_left step (enumerate lines s) st.
Proof.
  intros Hstep. induction 1 as [|l l' lines lines' Hl _ IH]; intros s st.
  - reflexivity.
  - rewrite !enumerate_cons. cbn [fold_left].
    now rewrite (Hstep st s l l' Hl), IH.
Qed.

Lemma existsb_padded (f : str -> bool) (lines lines' : list str) (n : nat) :
  (forall l l', Behaviour.padded l l' -> f l' = f l) ->
  Forall2 Behaviour.padded lines lines' ->
  existsb f (firstn n lines') = existsb f (firstn n lines).
Proof.
  intros Hf H. revert n. induction H as [|l l' lines lines' Hl _ IH];
    intros [|n]; try reflexivity.
  cbn [firstn existsb]. now rewrite (Hf l l' Hl), IH.
Qed.

(** X18. Whitespace around a line changes nothing: two documents whose lines
    differ only by leading and trailing whitespace yield the same issues, with
    the same line numbers and the same quoted texts. *)
Theorem surrounding_whitespace_is_ignored (lines lines' : list str) :
  Forall2 Behaviour.padded lines lines' ->
  check_lines lines' = check_lines lines.
Proof.
  intros H. unfold check_lines.
  assert (Hh : forall acc, check_header lines' acc = check_header lines acc).
  { intros acc. destruct H as [|l l' ? ? (x & y & Hx & Hy & ->) _];
      [reflexivity|].
    unfold check_header. now rewrite strip_pad. }
  assert (Hn : forall acc, check_notation lines' acc = check_notation lines acc).
  { intros acc. unfold check_notation.
    rewrite (@existsb_padded _ lines lines' 10); [reflexivity | | assumption].
    intros l l' (x & y & Hx & Hy & ->). now rewrite strip_pad. }
  assert (Hb : forall acc, check_braces lines' acc = check_braces lines acc).
  { intros acc. unfold check_braces.
    rewrite (@fold_left_padded _ brace_step lines lines'); [reflexivity | | assumption].
    intros st i l l' (x & y & Hx & Hy & ->). now apply brace_step_pad. }
  assert (Hd : forall acc, check_decls lines' acc = check_decls lines acc).
  { intros acc. unfold check_decls.
    apply fold_left_padded; [|assumption].
    intros st i l l' (x & y & Hx & Hy & ->). now apply decl_step_pad. }
  assert (Hc : forall acc,
             check_cardinalities lines' acc = check_cardinalities lines acc).
  { intros acc. unfold check_cardinalities.
    rewrite (@fold_left_padded _ card_step lines lines'); [reflexivity | | assumption].
    intros st i l l' (x & y & Hx & Hy & ->). now apply card_step_pad. }
  assert (Hq : forall acc, check_quotes lines' acc = check_quotes lines acc).
  { intros acc. unfold check_quotes.
    apply fold_left_padded; [|assumption].
    intros st i l l' (x & y & Hx & Hy & ->). now apply quote_step_pad. }
  now rewrite Hh, Hn, Hb, Hd, Hc, Hq.
Qed.

Lemma surrounding_whitespace_is_ignored_witness :
  check_lines Cases.cards_indented = check_lines Examples.cards.
Proof.
  apply (@surrounding_whitespace_is_ignored Examples.cards Cases.cards_indented).
  repeat (constructor;
          [exists [9], (py "  "); repeat constructor|]).
  constructor.
Defined.

End PaddedChecks.

(* ================================================================== *)
(** * The patterns the checks do not use *)

Section UnusedPatterns.

Lemma card_pattern_matches (s : str) :
  re_match CARD_PATTERN s = true /\ re_search CARD_PATTERN s = true.
Proof. destruct s; split; reflexivity. Qed.

Lemma notation_decl_spaced (sp sp' rest : str) (c : char) :
  Behaviour.blank sp -> Behaviour.blank sp' -> alpha_us c = true ->
  re_match NOTATION_DECL
    (py "notation" ++ sp ++ py "=" ++ sp' ++ c :: rest) = true.
Proof.
  intros Hsp Hsp' Hc. apply re_match_spec.
  exists (py "notation" ++ sp ++ py "=" ++ sp' ++ [c]), rest. split.
  - rewrite <- !app_assoc. reflexivity.
  - unfold NOTATION_DECL.
    apply lang_cat; [now apply lang_Str|].
    apply lang_cat; [now apply lang_star_class|].
    apply (@lang_cat (Lit (ch "=")) _ [ch "="] (sp' ++ [c])); [constructor|].
    apply lang_cat; [now apply lang_star_class|].
    apply lang_plus_class. split; [discriminate | now repeat constructor].
Qed.

Lemma spaced_not_prefix (sp tail : str) :
  Behaviour.blank sp -> sp <> [] ->
  startswith (py "notation" ++ sp ++ tail) (py "notation=") = false.
Proof.
  intros Hsp Hne. destruct sp as [|d sp]; [contradiction|].
  inversion Hsp as [|? ? Hd _]; subst. simpl.
  destruct (N.eqb_spec d 61%N) as [->|]; [discriminate | reflexivity].
Qed.

(** X19. The patterns [CARD_PATTERN] and [NOTATION_DECL], which no check
    uses, are looser than the checks: [CARD_PATTERN] matches at the start of
    every text, its last alternative being empty, and [NOTATION_DECL] matches
    a declaration with whitespace before the equals sign, for which the
    notation check raises its issue all the same. *)
Theorem unused_patterns_are_looser (s l sp sp' rest : str) (c : char) :
  Behaviour.blank sp -> sp <> [] -> Behaviour.blank sp' -> alpha_us c = true ->
  strip l = py "notation" ++ sp ++ py "=" ++ sp' ++ c :: rest ->
  re_match CARD_PATTERN s = true
  /\ re_search CARD_PATTERN s = true
  /\ re_match NOTATION_DECL (strip l) = true
  /\ In MissingNotation (check_lines [l]).
Proof.
  intros Hsp Hne Hsp' Hc E.
  destruct (card_pattern_matches s) as [H1 H2].
  split; [exact H1|]. split; [exact H2|]. split.
  - rewrite E. now apply notation_decl_spaced.
  - rewrite in_own. cbn [issue_check checks nth]. unfold check_notation.
    cbn [firstn existsb]. rewrite E, (@spaced_not_prefix sp _ Hsp Hne).
    simpl. now left.
Qed.

Lemma unused_patterns_are_looser_witness :
  re_match CARD_PATTERN (py "[maybe]") = true
  /\ re_search CARD_PATTERN (py "[maybe]") = true
  /\ re_match NOTATION_DECL (strip (py "  notation = crowsfoot")) = true
  /\ In MissingNotation (check_lines [py "  notation = crowsfoot"]).
Proof.
  apply (@unused_patterns_are_looser (py "[maybe]")
           (py "  notation = crowsfoot") (py " ") (py " ") (py "rowsfoot")
           (ch "c")).
  - repeat constructor.
  - discriminate.
  - repeat constructor.
  - reflexivity.
  - reflexivity.
Defined.

End UnusedPatterns.
